(** * Planar positioning, tracking and mini-golf game logic of V3D_Proy1

    Shallow embedding of [calibration.py], [positioning.py], [tracking.py]
    and [pyScripts/game_engine.py].  Python floats are modelled by exact
    rationals [Q].  Wherever the source compares a Euclidean norm
    ([np.linalg.norm]) with a non-negative constant [c], the model compares
    the squared norm with [c*c]; since the square root is monotone and both
    sides are non-negative, the two comparisons decide the same way. *)

From Stdlib Require Import QArith Qround Qfield Qminmax Qabs Lqa List Bool Arith Lia.
Import ListNotations.

Open Scope Q_scope.

(** Python's float comparison [a < b]. *)
Definition Qltb (a b : Q) : bool := negb (Qle_bool b a).

(** Python exceptions raised by the modelled code. *)
Inductive exn := LinAlgError | TypeError.

(** Result of a Python call: a returned value or a raised exception. *)
Inductive outcome (A : Type) := Ret (a : A) | Raise (e : exn).
Arguments Ret {A} a.
Arguments Raise {A} e.

(** ** calibration.py *)
Module Calibration.

Record vec3 := V3 { v0 : Q; v1 : Q; v2 : Q }.

(** A 3x3 numpy matrix, row by row. *)
Record mat3 := M3 {
  a00 : Q; a01 : Q; a02 : Q;
  a10 : Q; a11 : Q; a12 : Q;
  a20 : Q; a21 : Q; a22 : Q }.

(** [M @ p] *)
Definition mulv (M : mat3) (p : vec3) : vec3 :=
  V3 (a00 M * v0 p + a01 M * v1 p + a02 M * v2 p)
     (a10 M * v0 p + a11 M * v1 p + a12 M * v2 p)
     (a20 M * v0 p + a21 M * v1 p + a22 M * v2 p).

Definition det3 (M : mat3) : Q :=
  a00 M * (a11 M * a22 M - a12 M * a21 M)
  - a01 M * (a10 M * a22 M - a12 M * a20 M)
  + a02 M * (a10 M * a21 M - a11 M * a20 M).

(** [np.linalg.inv]: raises [LinAlgError] on a singular matrix, otherwise
    returns the inverse (adjugate divided by the determinant). *)
Definition inv (M : mat3) : outcome mat3 :=
  let d := det3 M in
  if Qeq_bool d 0 then Raise LinAlgError
  else Ret (M3
    ((a11 M * a22 M - a12 M * a21 M) / d)
    ((a02 M * a21 M - a01 M * a22 M) / d)
    ((a01 M * a12 M - a02 M * a11 M) / d)
    ((a12 M * a20 M - a10 M * a22 M) / d)
    ((a00 M * a22 M - a02 M * a20 M) / d)
    ((a02 M * a10 M - a00 M * a12 M) / d)
    ((a10 M * a21 M - a11 M * a20 M) / d)
    ((a01 M * a20 M - a00 M * a21 M) / d)
    ((a00 M * a11 M - a01 M * a10 M) / d)).

(** The fields of [HomographyCalibrator] that the transformations read.
    [image_corners], [world_corners] and [_click_points] only feed the
    solver and the printed reprojection error. *)
Record HomographyCalibrator := mkCalib {
  H : option mat3;             (* image -> world *)
  H_inv : option mat3;         (* world -> image *)
  calibration_done : bool }.

Definition init_calibrator : HomographyCalibrator := mkCalib None None false.

Definition is_calibrated (c : HomographyCalibrator) : bool := calibration_done c.

(** [_compute_homography]; [found] is the matrix returned by
    [cv2.findHomography] ([None] when it fails).  The state after the call
    is returned also when the call raises: [self.H] has already been
    assigned by then.  The reprojection error is only printed (a zero
    homogeneous term there gives a numpy warning, not an exception). *)
Definition _compute_homography (found : option mat3) (c : HomographyCalibrator)
  : outcome bool * HomographyCalibrator :=
  let c1 := mkCalib found (H_inv c) (calibration_done c) in
  match found with
  | None => (Ret false, mkCalib found (H_inv c) false)
  | Some M =>
      match inv M with
      | Raise e => (Raise e, c1)
      | Ret Mi => (Ret true, mkCalib found (Some Mi) true)
      end
  end.

(** [set_homography_direct] *)
Definition set_homography_direct (M : mat3) (c : HomographyCalibrator)
  : outcome unit * HomographyCalibrator :=
  match inv M with
  | Raise e => (Raise e, mkCalib (Some M) (H_inv c) (calibration_done c))
  | Ret Mi => (Ret tt, mkCalib (Some M) (Some Mi) true)
  end.

Definition eps_w : Q := 1 # 10000000000.   (* 1e-10 *)

(** [image_to_world]; [None @ p] raises a [TypeError] in Python. *)
Definition image_to_world (c : HomographyCalibrator) (image_point : Q * Q)
  : outcome (option (Q * Q)) :=
  if negb (calibration_done c) then Ret None else
  match H c with
  | None => Raise TypeError
  | Some M =>
      let w := mulv M (V3 (fst image_point) (snd image_point) 1) in
      if Qltb (Qabs (v2 w)) eps_w then Ret None
      else Ret (Some (v0 w / v2 w, v1 w / v2 w))
  end.

(** [world_to_image] *)
Definition world_to_image (c : HomographyCalibrator) (world_point : Q * Q)
  : outcome (option (Q * Q)) :=
  if negb (calibration_done c) then Ret None else
  match H_inv c with
  | None => Raise TypeError
  | Some M =>
      let q := mulv M (V3 (fst world_point) (snd world_point) 1) in
      if Qltb (Qabs (v2 q)) eps_w then Ret None
      else Ret (Some (v0 q / v2 q, v1 q / v2 q))
  end.

(** The calls that change the calibrator.  A calibration entry point that
    returns before [_compute_homography] (ESC in the manual window, fewer
    than four ArUco markers, a missing marker id) leaves it as it is. *)
Inductive calib_op :=
  | OpCompute (found : option mat3)
  | OpSetDirect (M : mat3).

Definition calib_step (c : HomographyCalibrator) (o : calib_op) : HomographyCalibrator :=
  match o with
  | OpCompute found => snd (_compute_homography found c)
  | OpSetDirect M => snd (set_homography_direct M c)
  end.

(** A calibrator after a sequence of calls; an exception raised by one of
    them is caught by the caller and the object keeps its partial update. *)
Definition run_calib (ops : list calib_op) : HomographyCalibrator :=
  fold_left calib_step ops init_calibrator.

End Calibration.

(** ** positioning.py *)
Module Positioning.
Import Calibration.

(** [PlanarPositioner]: the calibrator and the estimated optical centre
    [(Cx, Cy, Cz)] in world coordinates ([None] when it could not be
    estimated, or was never set). *)
Record PlanarPositioner := mkPositioner {
  calibrator : HomographyCalibrator;
  _camera_center_world : option (Q * Q * Q) }.

(** [image_to_plane] delegates to the calibrator. *)
Definition image_to_plane (pp : PlanarPositioner) (image_point : Q * Q)
  : outcome (option (Q * Q)) :=
  image_to_world (calibrator pp) image_point.

(** [set_camera_center] *)
Definition set_camera_center (pp : PlanarPositioner) (c : Q * Q * Q) : PlanarPositioner :=
  mkPositioner (calibrator pp) (Some c).

Definition eps_h : Q := 1 # 1000000.   (* 1e-6 *)

(** [correct_height] *)
Definition correct_height (pp : PlanarPositioner) (apparent_position : option (Q * Q))
  (object_height : Q) : option (Q * Q) :=
  match apparent_position with
  | None => None
  | Some p =>
      if Qltb (Qabs object_height) eps_h then Some p else
      match _camera_center_world pp with
      | None => Some p
      | Some (Cx, Cy, Cz) =>
          if Qltb (Qabs (Cz - object_height)) eps_h then Some p else
          let k := Cz / (Cz - object_height) in
          Some (Cx + k * (fst p - Cx), Cy + k * (snd p - Cy))
      end
  end.

End Positioning.

(** ** tracking.py ([ColorTracker]) *)
Module Tracking.

(** Python [int(x)] on a float: truncation toward zero. *)
Definition int_of (q : Q) : Z :=
  if Qle_bool 0 q then Qfloor q else (- Qfloor (- q))%Z.

(** [np.pi] as the exact value of the double. *)
Definition np_pi : Q := 884279719003555 # 281474976710656.

Definition BALL_MIN_RADIUS_PX : Q := 8.
Definition BALL_MAX_RADIUS_PX : Q := 120.
Definition TRACKING_SEARCH_MARGIN : Z := 80.

(** What OpenCV reports for one external contour of the cleaned mask of
    the search window: [cv2.contourArea], [cv2.minEnclosingCircle] (centre
    in window coordinates and radius) and [cv2.arcLength]. *)
Record contour := mkContour {
  c_area : Q;
  c_center : Q * Q;
  c_radius : Q;
  c_perimeter : Q }.

(** A BGR frame: its size and, for every window [(x1, y1, x2, y2)], the
    contours that colour segmentation plus erosion and dilation give there. *)
Record frame := mkFrame {
  frame_h : Z;
  frame_w : Z;
  find_contours : Z -> Z -> Z -> Z -> list contour }.

Record ColorTracker := mkTracker {
  last_position : option (Q * Q);
  last_radius : option Q;
  search_margin : Z;
  _initialized : bool;
  _lost_counter : nat;
  _max_lost_frames : nat;
  _velocity : Q * Q }.

(** [ColorTracker.__init__] (the HSV bounds only feed the segmentation). *)
Definition new_tracker : ColorTracker :=
  mkTracker None None TRACKING_SEARCH_MARGIN false 0 30 (0, 0).

(** [initialize] *)
Definition initialize (t : ColorTracker) (cx cy radius : Q) : ColorTracker :=
  mkTracker (Some (cx, cy)) (Some radius) (search_margin t) true 0
    (_max_lost_frames t) (0, 0).

(** [is_lost] *)
Definition is_lost (t : ColorTracker) : bool :=
  Nat.ltb (_max_lost_frames t) (_lost_counter t).

Definition with_lost_counter (t : ColorTracker) (n : nat) : ColorTracker :=
  mkTracker (last_position t) (last_radius t) (search_margin t)
    (_initialized t) n (_max_lost_frames t) (_velocity t).

Section ColorUpdate.

(** The float square root used for the distance to the predicted centre;
    it only enters the candidate score and is left abstract. *)
Variable sqrt : Q -> Q.

(** The search window [(x1, y1, x2, y2)] and the margin it is built from. *)
Definition search_window (t : ColorTracker) (lp : Q * Q) (lr : Q) (f : frame)
  : Z * (Z * Z * Z * Z) :=
  let predicted := (fst lp + fst (_velocity t), snd lp + snd (_velocity t)) in
  let margin := (search_margin t + int_of (lr * 2))%Z in
  let x1 := Z.max 0 (int_of (fst predicted - inject_Z margin)) in
  let y1 := Z.max 0 (int_of (snd predicted - inject_Z margin)) in
  let x2 := Z.min (frame_w f) (int_of (fst predicted + inject_Z margin)) in
  let y2 := Z.min (frame_h f) (int_of (snd predicted + inject_Z margin)) in
  (margin, (x1, y1, x2, y2)).

Definition window_degenerate (w : Z * Z * Z * Z) : bool :=
  let '(x1, y1, x2, y2) := w in
  (Z.ltb (x2 - x1) 10 || Z.ltb (y2 - y1) 10)%bool.

(** The loop over contours choosing [best_candidate]; the accumulator is
    [(best_score, best_candidate)], starting from [(-1, None)]. *)
Definition best_candidate (t : ColorTracker) (lp : Q * Q) (lr : Q)
  (margin x1 y1 : Z) (cnts : list contour) : option (Q * Q * Q) :=
  let predicted := (fst lp + fst (_velocity t), snd lp + snd (_velocity t)) in
  snd (fold_left (fun (acc : Q * option (Q * Q * Q)) cnt =>
    let area := c_area cnt in
    if Qltb area (np_pi * (BALL_MIN_RADIUS_PX ^ 2) * (3 # 10)) then acc else
    let radius := c_radius cnt in
    if Qltb radius (BALL_MIN_RADIUS_PX * (1 # 2)) then acc else
    if Qltb (BALL_MAX_RADIUS_PX * (3 # 2)) radius then acc else
    let cx_global := fst (c_center cnt) + inject_Z x1 in
    let cy_global := snd (c_center cnt) + inject_Z y1 in
    let dist := sqrt ((cx_global - fst predicted) ^ 2 + (cy_global - snd predicted) ^ 2) in
    let radius_diff := Qabs (radius - lr) / Qmax lr 1 in
    let perimeter := c_perimeter cnt in
    let circularity :=
      if Qltb 0 perimeter then 4 * np_pi * area / (perimeter ^ 2) else 0 in
    let score := circularity - dist / inject_Z margin - radius_diff * (1 # 2) in
    if Qltb (fst acc) score then (score, Some (cx_global, cy_global, radius))
    else acc) cnts (-1, None)).

(** [ColorTracker.update]: the value returned and the tracker after it.
    [self.last_position] / [self.last_radius] being [None] on an
    initialised tracker would make the arithmetic raise. *)
Definition update (t : ColorTracker) (f : frame)
  : outcome (option (Z * Z * Z)) * ColorTracker :=
  if negb (_initialized t) then (Ret None, t) else
  match last_position t, last_radius t with
  | Some lp, Some lr =>
      let '(margin, (x1, y1, x2, y2)) := search_window t lp lr f in
      if window_degenerate (x1, y1, x2, y2) then
        (Ret None, with_lost_counter t (S (_lost_counter t)))
      else
        let cnts := find_contours f x1 y1 x2 y2 in
        let coast := Some (int_of (fst lp), int_of (snd lp), int_of lr) in
        match cnts with
        | [] =>
            let n := S (_lost_counter t) in
            (Ret (if Nat.leb n (_max_lost_frames t) then coast else None),
             with_lost_counter t n)
        | _ :: _ =>
            match best_candidate t lp lr margin x1 y1 cnts with
            | None => (Ret coast, with_lost_counter t (S (_lost_counter t)))
            | Some (cx, cy, radius) =>
                let new_vel := (cx - fst lp, cy - snd lp) in
                let vel := ((6 # 10) * fst new_vel + (1 - (6 # 10)) * fst (_velocity t),
                            (6 # 10) * snd new_vel + (1 - (6 # 10)) * snd (_velocity t)) in
                let lr' := (7 # 10) * lr + (3 # 10) * radius in
                (Ret (Some (int_of cx, int_of cy, int_of lr')),
                 mkTracker (Some (cx, cy)) (Some lr') (search_margin t) true 0
                   (_max_lost_frames t) vel)
            end
        end
  | _, _ => (Raise TypeError, t)
  end.

(** A frame in which the tracker's search window is a proper window and
    holds no contour that the scoring loop accepts. *)
Definition no_match (t : ColorTracker) (f : frame) : bool :=
  match last_position t, last_radius t with
  | Some lp, Some lr =>
      let '(margin, (x1, y1, x2, y2)) := search_window t lp lr f in
      negb (window_degenerate (x1, y1, x2, y2)) &&
      match best_candidate t lp lr margin x1 y1 (find_contours f x1 y1 x2 y2) with
      | None => true
      | Some _ => false
      end
  | _, _ => false
  end.

(** Feeding frames one by one: the returned values and the final tracker. *)
Fixpoint run (t : ColorTracker) (fs : list frame)
  : list (outcome (option (Z * Z * Z))) * ColorTracker :=
  match fs with
  | [] => ([], t)
  | f :: fs' =>
      let '(r, t') := update t f in
      let '(rs, t'') := run t' fs' in
      (r :: rs, t'')
  end.

End ColorUpdate.

End Tracking.

(** ** pyScripts/game_engine.py *)
Module Engine.

Definition pt := (Q * Q)%type.

(** Squared Euclidean distance; [np.linalg.norm(a - b) < c] is modelled
    as [dist2 a b < c * c]. *)
Definition dist2 (a b : pt) : Q := (fst a - fst b) ^ 2 + (snd a - snd b) ^ 2.

(** config.py *)
Definition HOLE_RADIUS_CM : Q := 3.5.
Definition HOLE_IN_TOLERANCE_CM : Q := 4.0.
Definition BALL_STOPPED_THRESHOLD_CM : Q := 0.8.
Definition BALL_STOPPED_FRAMES : nat := 15.
Definition MAX_PUTTS_PER_HOLE : nat := 10.
Definition HOLE_POSITIONS : list pt :=
  [(45.0, 20.0); (15.0, 10.0); (50.0, 35.0); (10.0, 30.0); (30.0, 5.0)].
Definition OBSTACLES : list (Q * Q * Q) := [].

(** The status text, by the message it formats. *)
Inductive status :=
  | St_empty                                   (* "" *)
  | St_level_start (level : nat)               (* "Nivel {l} - ¡A jugar!" *)
  | St_countdown (remaining : Q)               (* "¡EMBOCADA! Siguiente nivel en {r}s" *)
  | St_not_detected                            (* "Pelota no detectada" *)
  | St_moving (dist : option Q)                (* "Pelota en movimiento... Dist: {d} cm" *)
  | St_hit_ball (level : nat)                  (* "Nivel {l} - ¡Golpea la pelota!" *)
  | St_max_putts                               (* "Máximo de golpes alcanzado" *)
  | St_putts (putts : nat) (dist : option Q)   (* "Golpes: {p} | Dist: {d} cm" *)
  | St_hole_in (putts : nat)                   (* "¡¡¡EMBOCADA en {p} golpe(s)!!!" *)
  | St_completed (score : nat)                 (* "¡¡PARTIDA COMPLETADA!! ..." *)
  | St_restarted (level : nat).                (* "Nivel {l} reiniciado" *)

(** [GameState]; [distance_to_hole] holds the squared distance, [None]
    standing for [float('inf')]. *)
Record GameState := mkGS {
  level : nat;
  putts : nat;
  total_score : nat;
  status_text : status;
  ball_world_pos : option pt;
  ball_image_pos : option pt;
  hole_position : option pt;
  obstacles : list (Q * Q * Q);
  is_ball_moving : bool;
  is_hole_in : bool;
  game_over : bool;
  distance_to_hole : option Q }.

Definition new_GameState : GameState :=
  mkGS 1 0 0 St_empty None None None OBSTACLES false false false None.

Record MiniGolfEngine := mkEngine {
  state : GameState;
  _stopped_frame_count : nat;
  _last_positions : list pt;
  _max_history : nat;
  _level_start_time : Q;
  _hole_in_time : Q;
  _celebrating : bool;
  _celebration_duration : Q }.

Definition new_engine : MiniGolfEngine :=
  mkEngine new_GameState 0 [] (BALL_STOPPED_FRAMES * 2) 0 0 false 3.0.

(** Field assignments on [GameState]. *)
Definition set_level s v := mkGS v (putts s) (total_score s) (status_text s) (ball_world_pos s) (ball_image_pos s) (hole_position s) (obstacles s) (is_ball_moving s) (is_hole_in s) (game_over s) (distance_to_hole s).
Definition set_putts s v := mkGS (level s) v (total_score s) (status_text s) (ball_world_pos s) (ball_image_pos s) (hole_position s) (obstacles s) (is_ball_moving s) (is_hole_in s) (game_over s) (distance_to_hole s).
Definition set_total_score s v := mkGS (level s) (putts s) v (status_text s) (ball_world_pos s) (ball_image_pos s) (hole_position s) (obstacles s) (is_ball_moving s) (is_hole_in s) (game_over s) (distance_to_hole s).
Definition set_status s v := mkGS (level s) (putts s) (total_score s) v (ball_world_pos s) (ball_image_pos s) (hole_position s) (obstacles s) (is_ball_moving s) (is_hole_in s) (game_over s) (distance_to_hole s).
Definition set_ball_world_pos s v := mkGS (level s) (putts s) (total_score s) (status_text s) v (ball_image_pos s) (hole_position s) (obstacles s) (is_ball_moving s) (is_hole_in s) (game_over s) (distance_to_hole s).
Definition set_hole_position s v := mkGS (level s) (putts s) (total_score s) (status_text s) (ball_world_pos s) (ball_image_pos s) v (obstacles s) (is_ball_moving s) (is_hole_in s) (game_over s) (distance_to_hole s).
Definition set_is_ball_moving s v := mkGS (level s) (putts s) (total_score s) (status_text s) (ball_world_pos s) (ball_image_pos s) (hole_position s) (obstacles s) v (is_hole_in s) (game_over s) (distance_to_hole s).
Definition set_is_hole_in s v := mkGS (level s) (putts s) (total_score s) (status_text s) (ball_world_pos s) (ball_image_pos s) (hole_position s) (obstacles s) (is_ball_moving s) v (game_over s) (distance_to_hole s).
Definition set_game_over s v := mkGS (level s) (putts s) (total_score s) (status_text s) (ball_world_pos s) (ball_image_pos s) (hole_position s) (obstacles s) (is_ball_moving s) (is_hole_in s) v (distance_to_hole s).
Definition set_distance_to_hole s v := mkGS (level s) (putts s) (total_score s) (status_text s) (ball_world_pos s) (ball_image_pos s) (hole_position s) (obstacles s) (is_ball_moving s) (is_hole_in s) (game_over s) v.

(** Field assignments on [MiniGolfEngine]. *)
Definition set_state e v := mkEngine v (_stopped_frame_count e) (_last_positions e) (_max_history e) (_level_start_time e) (_hole_in_time e) (_celebrating e) (_celebration_duration e).
Definition set_stopped_frame_count e v := mkEngine (state e) v (_last_positions e) (_max_history e) (_level_start_time e) (_hole_in_time e) (_celebrating e) (_celebration_duration e).
Definition set_last_positions e v := mkEngine (state e) (_stopped_frame_count e) v (_max_history e) (_level_start_time e) (_hole_in_time e) (_celebrating e) (_celebration_duration e).
Definition set_level_start_time e v := mkEngine (state e) (_stopped_frame_count e) (_last_positions e) (_max_history e) v (_hole_in_time e) (_celebrating e) (_celebration_duration e).
Definition set_hole_in_time e v := mkEngine (state e) (_stopped_frame_count e) (_last_positions e) (_max_history e) (_level_start_time e) v (_celebrating e) (_celebration_duration e).
Definition set_celebrating e v := mkEngine (state e) (_stopped_frame_count e) (_last_positions e) (_max_history e) (_level_start_time e) (_hole_in_time e) v (_celebration_duration e).

(** [s.f = v] on the engine's [GameState]. *)
Definition upd (e : MiniGolfEngine) (f : GameState -> GameState) : MiniGolfEngine :=
  set_state e (f (state e)).

(** Python's [l[-n:]] for [n > 0]. *)
Definition last_n {A} (n : nat) (l : list A) : list A := skipn (length l - n) l.

(** [_set_hole_for_level]: [(level - 1) % len(HOLE_POSITIONS)] with
    Python's non-negative modulo, written [(level + 4) mod 5]. *)
Definition _set_hole_for_level (e : MiniGolfEngine) (lvl : nat) : MiniGolfEngine :=
  let idx := Nat.modulo (lvl + (length HOLE_POSITIONS - 1)) (length HOLE_POSITIONS) in
  upd e (fun s => set_hole_position s (Some (nth idx HOLE_POSITIONS (0, 0)))).

(** [start_game]; [now] is [time.time()]. *)
Definition start_game (e : MiniGolfEngine) (now : Q) : MiniGolfEngine :=
  let e1 := set_state e (set_total_score (set_level new_GameState 1) 0) in
  let e2 := _set_hole_for_level e1 1 in
  let e3 := upd e2 (fun s => set_status s (St_level_start 1)) in
  set_celebrating (set_level_start_time e3 now) false.

(** [_check_movement]: the returned flag and the engine with its updated
    stillness counter.  [max_displacement] is kept squared. *)
Fixpoint max_step_sq (acc : Q) (l : list pt) : Q :=
  match l with
  | a :: ((b :: _) as rest) => max_step_sq (Qmax acc (dist2 b a)) rest
  | _ => acc
  end.

Definition _check_movement (e : MiniGolfEngine) : bool * MiniGolfEngine :=
  if Nat.ltb (length (_last_positions e)) BALL_STOPPED_FRAMES then (true, e) else
  let recent := last_n BALL_STOPPED_FRAMES (_last_positions e) in
  let max_displacement := max_step_sq 0 recent in
  let e' := if Qltb max_displacement (BALL_STOPPED_THRESHOLD_CM * BALL_STOPPED_THRESHOLD_CM)
            then set_stopped_frame_count e (S (_stopped_frame_count e))
            else set_stopped_frame_count e 0 in
  (Nat.ltb (_stopped_frame_count e') BALL_STOPPED_FRAMES, e').

(** [_hole_in] *)
Definition _hole_in (e : MiniGolfEngine) (now : Q) : MiniGolfEngine :=
  let e1 := upd e (fun s => set_is_hole_in s true) in
  let e2 := set_hole_in_time (set_celebrating e1 true) now in
  let e3 := if Nat.eqb (putts (state e2)) 0 then upd e2 (fun s => set_putts s 1) else e2 in
  let score := putts (state e3) in
  let e4 := upd e3 (fun s => set_total_score s (total_score s + score)) in
  upd e4 (fun s => set_status s (St_hole_in (putts s))).

(** [_advance_level] *)
Definition _advance_level (e : MiniGolfEngine) (now : Q) : MiniGolfEngine :=
  let e1 := upd e (fun s => set_is_hole_in (set_putts (set_level s (S (level s))) 0) false) in
  let e2 := set_last_positions (set_stopped_frame_count e1 0) [] in
  if Nat.ltb (length HOLE_POSITIONS) (level (state e2)) then
    upd e2 (fun s => set_status (set_game_over s true) (St_completed (total_score s)))
  else
    let e3 := _set_hole_for_level e2 (level (state e2)) in
    let e4 := upd e3 (fun s => set_status s (St_level_start (level s))) in
    set_level_start_time e4 now.

(** [restart_level] *)
Definition restart_level (e : MiniGolfEngine) : MiniGolfEngine :=
  let e1 := upd e (fun s => set_is_hole_in (set_putts s 0) false) in
  let e2 := set_last_positions (set_stopped_frame_count e1 0) [] in
  let e3 := set_celebrating e2 false in
  upd e3 (fun s => set_status s (St_restarted (level s))).

(** [dist < c] for the distance computed in [update] ([None] is [inf]). *)
Definition dist_lt (d : option Q) (c : Q) : bool :=
  match d with
  | Some d2 => Qltb d2 (c * c)
  | None => false
  end.

(** [update]; [now] is [time.time()]. *)
Definition update (e : MiniGolfEngine) (ball_world_pos : option pt) (now : Q)
  : MiniGolfEngine :=
  if game_over (state e) then e else
  if _celebrating e then
    let elapsed := now - _hole_in_time e in
    if Qltb (_celebration_duration e) elapsed then
      _advance_level (set_celebrating e false) now
    else
      upd e (fun s => set_status s (St_countdown (_celebration_duration e - elapsed)))
  else
  match ball_world_pos with
  | None => upd e (fun s => set_status s St_not_detected)
  | Some p =>
      let e1 := upd e (fun s => set_ball_world_pos s (Some p)) in
      let hist := _last_positions e1 ++ [p] in
      let hist := if Nat.ltb (_max_history e1) (length hist)
                  then last_n (_max_history e1) hist else hist in
      let e2 := set_last_positions e1 hist in
      let dist := match hole_position (state e2) with
                  | Some h => Some (dist2 p h)
                  | None => None
                  end in
      let e3 := match dist with
                | Some d => upd e2 (fun s => set_distance_to_hole s (Some d))
                | None => e2
                end in
      let '(is_moving, e4) := _check_movement e3 in
      let was_moving := is_ball_moving (state e4) in
      let e5 := upd e4 (fun s => set_is_ball_moving s is_moving) in
      let e6 := if was_moving && negb is_moving
                then upd e5 (fun s => set_putts s (S (putts s))) else e5 in
      if dist_lt dist HOLE_IN_TOLERANCE_CM &&
         (negb is_moving || dist_lt dist HOLE_RADIUS_CM) then
        _hole_in e6 now
      else if is_moving then
        upd e6 (fun s => set_status s (St_moving dist))
      else if Nat.eqb (putts (state e6)) 0 then
        upd e6 (fun s => set_status s (St_hit_ball (level s)))
      else if Nat.leb MAX_PUTTS_PER_HOLE (putts (state e6)) then
        let e7 := upd e6 (fun s => set_putts (set_status s St_max_putts) MAX_PUTTS_PER_HOLE) in
        _advance_level e7 now
      else
        upd e6 (fun s => set_status s (St_putts (putts s) dist))
  end.

(** Feeding [update] a sequence of [(position, time)] inputs. *)
Fixpoint run_updates (e : MiniGolfEngine) (inputs : list (option pt * Q)) : MiniGolfEngine :=
  match inputs with
  | [] => e
  | (p, now) :: rest => run_updates (update e p now) rest
  end.

End Engine.

(** ** calibration.py: the two calibration entry points *)
Module CalibrationEntry.
Import Calibration.

(** [cv2.EVENT_LBUTTONDOWN] *)
Definition EVENT_LBUTTONDOWN : Z := 1.

(** [_mouse_callback_calibration] acting on [self._click_points]. *)
Definition _mouse_callback_calibration (pts : list (Z * Z)) (event x y : Z) : list (Z * Z) :=
  if Z.eqb event EVENT_LBUTTONDOWN && Nat.ltb (length pts) 4 then pts ++ [(x, y)] else pts.

(** A mouse event delivered to the window callback. *)
Record mouse_event := mkMouse { m_event : Z; m_x : Z; m_y : Z }.

Definition run_callbacks (pts : list (Z * Z)) (evs : list mouse_event) : list (Z * Z) :=
  fold_left (fun acc m => _mouse_callback_calibration acc (m_event m) (m_x m) (m_y m)) evs pts.

(** One pass of the waiting loop of [calibrate_manual]: the mouse events
    the callback receives during [cv2.waitKey(30)], and the code that call
    returns. *)
Record tick := mkTick { t_mouse : list mouse_event; t_key : Z }.

Inductive manual_end := Cancelled | Clicked (pts : list (Z * Z)).

(** [while len(self._click_points) < 4: ...]: [key = cv2.waitKey(30) & 0xFF],
    ESC (27) returns [False], ['r'] (114) clears the points.  [None] when the
    ticks run out with the loop still waiting. *)
Fixpoint manual_loop (pts : list (Z * Z)) (ticks : list tick) : option manual_end :=
  if Nat.ltb (length pts) 4 then
    match ticks with
    | [] => None
    | tk :: rest =>
        let pts1 := run_callbacks pts (t_mouse tk) in
        let key := Z.land (t_key tk) 255 in
        if Z.eqb key 27 then Some Cancelled
        else if Z.eqb key 114 then manual_loop [] rest
        else manual_loop pts1 rest
    end
  else Some (Clicked pts).

Definition corners_of_clicks (pts : list (Z * Z)) : list (Q * Q) :=
  map (fun xy => (inject_Z (fst xy), inject_Z (snd xy))) pts.

(** [calibrate_manual]; [findHomography] is [cv2.findHomography] applied to
    [self.image_corners] (and the fixed [world_corners]).  The click list
    starts empty; the final [cv2.waitKey(0)] returns on any key. *)
Definition calibrate_manual (findHomography : list (Q * Q) -> option mat3)
  (ticks : list tick) (c : HomographyCalibrator)
  : option (outcome bool * HomographyCalibrator) :=
  match manual_loop [] ticks with
  | None => None
  | Some Cancelled => Some (Ret false, c)
  | Some (Clicked pts) => Some (_compute_homography (findHomography (corners_of_clicks pts)) c)
  end.

(** An ArUco detection: the marker id and its four corners [corners[i][0]]. *)
Record marker := mkMarker { mk_id : Z; mk_corners : list (Q * Q) }.

(** [corners[i][0].mean(axis=0)] *)
Definition mean_point (l : list (Q * Q)) : Q * Q :=
  (fold_left Qplus (map fst l) 0 / inject_Z (Z.of_nat (length l)),
   fold_left Qplus (map snd l) 0 / inject_Z (Z.of_nat (length l))).

(** The dictionary [id_to_center], filled in detection order: a later
    detection of an id overwrites an earlier one. *)
Definition id_to_center (ms : list marker) : Z -> option (Q * Q) :=
  fold_left (fun d m => fun k => if Z.eqb k (mk_id m) then Some (mean_point (mk_corners m)) else d k)
    ms (fun _ => None).

(** The loop over [marker_ids_order] building [image_pts]; [None] when an id
    is missing (the method then returns [False]). *)
Fixpoint collect (d : Z -> option (Q * Q)) (order : list Z) : option (list (Q * Q)) :=
  match order with
  | [] => Some []
  | mid :: rest =>
      match d mid with
      | None => None
      | Some c => option_map (cons c) (collect d rest)
      end
  end.

Definition default_marker_ids_order : list Z := [0; 1; 2; 3]%Z.

(** [calibrate_aruco]; [ids] is what the detector returns ([None] when no
    marker is found). *)
Definition calibrate_aruco (findHomography : list (Q * Q) -> option mat3)
  (marker_ids_order : list Z) (ids : option (list marker)) (c : HomographyCalibrator)
  : outcome bool * HomographyCalibrator :=
  match ids with
  | None => (Ret false, c)
  | Some ms =>
      if Nat.ltb (length ms) 4 then (Ret false, c) else
      match collect (id_to_center ms) marker_ids_order with
      | None => (Ret false, c)
      | Some image_pts => _compute_homography (findHomography image_pts) c
      end
  end.

End CalibrationEntry.

(** ** positioning.py: the remaining methods of [PlanarPositioner] *)
Module PositioningMore.
Import Calibration Positioning.

(** [plane_to_image] delegates to the calibrator. *)
Definition plane_to_image (pp : PlanarPositioner) (world_point : Q * Q)
  : outcome (option (Q * Q)) :=
  world_to_image (calibrator pp) world_point.

(** [get_ball_world_position] *)
Definition get_ball_world_position (pp : PlanarPositioner) (image_point : Q * Q)
  (ball_radius_cm : option Q) : outcome (option (Q * Q)) :=
  match image_to_plane pp image_point with
  | Raise e => Raise e
  | Ret None => Ret None
  | Ret (Some apparent_pos) =>
      match ball_radius_cm with
      | Some r =>
          if Qltb 0 r then Ret (correct_height pp (Some apparent_pos) r)
          else Ret (Some apparent_pos)
      | None => Ret (Some apparent_pos)
      end
  end.

End PositioningMore.

(** ** tracking.py: [ColorTracker.get_roi] and [OpenCVTracker] *)
Module TrackingMore.
Import Tracking.

(** [ColorTracker.get_roi]; [int(None * 2)] raises. *)
Definition get_roi (t : ColorTracker) : outcome (option (Z * Z * Z * Z)) :=
  match last_position t with
  | None => Ret None
  | Some (cx, cy) =>
      match last_radius t with
      | None => Raise TypeError
      | Some lr =>
          let margin := (search_margin t + int_of (lr * 2))%Z in
          Ret (Some (int_of (cx - inject_Z margin), int_of (cy - inject_Z margin),
                     (margin * 2)%Z, (margin * 2)%Z))
      end
  end.

(** A frame as [OpenCVTracker] uses it: its size and what the OpenCV
    tracker's [update] reports on it (success flag and [(x, y, w, h)]). *)
Record cv_frame := mkCvFrame {
  cv_h : Z;
  cv_w : Z;
  cv_result : bool * (Q * Q * Q * Q) }.

(** [OpenCVTracker]; [tracker] holds the box the OpenCV tracker was
    initialised with ([None] before [initialize] is called with a frame). *)
Record OpenCVTracker := mkCv {
  tracker : option (Z * Z * Z * Z);
  cv_initialized : bool;
  cv_lost_counter : nat;
  cv_last_position : option (Q * Q);
  cv_last_radius : option Q }.

Definition new_cv_tracker : OpenCVTracker := mkCv None false 0 None None.

(** [OpenCVTracker.initialize]; the OpenCV tracker is taken to accept the box. *)
Definition cv_initialize (t : OpenCVTracker) (cx cy radius : Q) (frame : option cv_frame)
  : OpenCVTracker :=
  match frame with
  | None => mkCv (tracker t) (cv_initialized t) (cv_lost_counter t) (Some (cx, cy)) (Some radius)
  | Some f =>
      let b0 := int_of (cx - radius) in
      let b1 := int_of (cy - radius) in
      let b2 := int_of (radius * 2) in
      let b3 := int_of (radius * 2) in
      let bbox := (Z.max 0 b0, Z.max 0 b1, Z.min b2 (cv_w f - b0), Z.min b3 (cv_h f - b1)) in
      mkCv (Some bbox) true (cv_lost_counter t) (Some (cx, cy)) (Some radius)
  end.

(** [OpenCVTracker.is_lost] *)
Definition cv_is_lost (t : OpenCVTracker) : bool := Nat.ltb 30 (cv_lost_counter t).

(** [OpenCVTracker.update]; [//] on Python ints is [Z.div]. *)
Definition cv_update (t : OpenCVTracker) (f : cv_frame)
  : outcome (option (Z * Z * Z)) * OpenCVTracker :=
  if negb (cv_initialized t) then (Ret None, t) else
  match tracker t with
  | None => (Ret None, t)
  | Some _ =>
      let '(success, (x0, y0, w0, h0)) := cv_result f in
      if success then
        let x := int_of x0 in let y := int_of y0 in
        let w := int_of w0 in let h := int_of h0 in
        let cx := (x + w / 2)%Z in
        let cy := (y + h / 2)%Z in
        let radius := (Z.max w h / 2)%Z in
        (Ret (Some (cx, cy, radius)),
         mkCv (tracker t) (cv_initialized t) 0 (Some (inject_Z cx, inject_Z cy))
           (Some (inject_Z radius)))
      else
        let t' := mkCv (tracker t) (cv_initialized t) (S (cv_lost_counter t))
                    (cv_last_position t) (cv_last_radius t) in
        match cv_last_position t with
        | None => (Ret None, t')
        | Some (px, py) =>
            match cv_last_radius t with
            | Some lr => (Ret (Some (int_of px, int_of py, int_of lr)), t')
            | None => (Raise TypeError, t')
            end
        end
  end.

Fixpoint cv_run (t : OpenCVTracker) (fs : list cv_frame)
  : list (outcome (option (Z * Z * Z))) * OpenCVTracker :=
  match fs with
  | [] => ([], t)
  | f :: fs' =>
      let '(r, t') := cv_update t f in
      let '(rs, t'') := cv_run t' fs' in
      (r :: rs, t'')
  end.

End TrackingMore.

(** ** pyScripts/game_engine.py: sessions and the remaining queries *)
Module EngineSession.
Import Engine.

Definition BALL_REAL_RADIUS_CM : Q := 2.0.

(** [np.linalg.norm(v) < c] for a vector of squared norm [d2]: the norm is
    non-negative, so the test holds exactly when [c > 0] and [d2 < c * c]. *)
Definition norm_lt (d2 c : Q) : bool := Qltb 0 c && Qltb d2 (c * c).

(** The loop of [check_obstacle_collision]. *)
Fixpoint find_collision (obs : list (Q * Q * Q)) (ball_pos : pt) : bool * option (Q * Q * Q) :=
  match obs with
  | [] => (false, None)
  | (ox, oy, orad) :: rest =>
      if norm_lt (dist2 ball_pos (ox, oy)) (orad + BALL_REAL_RADIUS_CM)
      then (true, Some (ox, oy, orad))
      else find_collision rest ball_pos
  end.

Definition check_obstacle_collision (e : MiniGolfEngine) (ball_pos : pt) : bool * option (Q * Q * Q) :=
  find_collision (obstacles (state e)) ball_pos.

Definition PLAY_AREA_WIDTH : Q := 60.0.
Definition PLAY_AREA_HEIGHT : Q := 40.0.

(** [is_ball_in_bounds] *)
Definition is_ball_in_bounds (e : MiniGolfEngine) (ball_pos : pt) : bool :=
  let margin := BALL_REAL_RADIUS_CM in
  Qle_bool margin (fst ball_pos) && Qle_bool (fst ball_pos) (PLAY_AREA_WIDTH - margin) &&
  Qle_bool margin (snd ball_pos) && Qle_bool (snd ball_pos) (PLAY_AREA_HEIGHT - margin).

(** The calls the application makes on the engine: [start_game] (also
    [restart_game]), [update] and [restart_level], with [time.time()]. *)
Inductive engine_op :=
  | OpStart (now : Q)
  | OpUpdate (ball_world_pos : option pt) (now : Q)
  | OpRestartLevel.

Definition engine_step (e : MiniGolfEngine) (o : engine_op) : MiniGolfEngine :=
  match o with
  | OpStart now => start_game e now
  | OpUpdate p now => update e p now
  | OpRestartLevel => restart_level e
  end.

(** A session: [MiniGolfEngine()], [start_game()], then any calls. *)
Definition run_session (t0 : Q) (ops : list engine_op) : MiniGolfEngine :=
  fold_left engine_step ops (start_game new_engine t0).

End EngineSession.

(** * Proofs *)

Lemma Qltb_true a b : Qltb a b = true <-> a < b.
Proof.
  unfold Qltb. rewrite negb_true_iff. split; intro Hlt.
  - apply Qnot_le_lt. intro C. apply Qle_bool_iff in C. congruence.
  - destruct (Qle_bool b a) eqn:E; auto.
    apply Qle_bool_iff in E. exfalso. apply (Qlt_not_le _ _ Hlt E).
Qed.

Lemma Qltb_false a b : Qltb a b = false <-> b <= a.
Proof. unfold Qltb. rewrite negb_false_iff. apply Qle_bool_iff. Qed.

Module CalibrationFacts.
Import Calibration.

Lemma inv_raise_singular M e : inv M = Raise e -> det3 M == 0.
Proof.
  unfold inv. destruct (Qeq_bool (det3 M) 0) eqn:E; [|discriminate].
  intros _. apply Qeq_bool_iff. exact E.
Qed.

(** [H_inv @ v] undoes... rather, [H @ (H_inv @ v)] gives [v] back. *)
Lemma inv_right M Mi x : inv M = Ret Mi ->
  v0 (mulv M (mulv Mi x)) == v0 x /\
  v1 (mulv M (mulv Mi x)) == v1 x /\
  v2 (mulv M (mulv Mi x)) == v2 x.
Proof.
  unfold inv. destruct (Qeq_bool (det3 M) 0) eqn:E; [discriminate|].
  intro Hr; inversion Hr; subst; clear Hr.
  assert (Hd : ~ det3 M == 0) by (intro C; apply Qeq_bool_iff in C; congruence).
  destruct M, x; unfold det3 in *; simpl in *.
  repeat split; field; exact Hd.
Qed.

(** Invariant of every calibrator the program can build: once calibrated,
    both matrices are stored, and when the forward one is regular the
    inverse one is its inverse. *)
Definition calib_inv (c : HomographyCalibrator) : Prop :=
  calibration_done c = true ->
  exists M Mi, H c = Some M /\ H_inv c = Some Mi /\ (~ det3 M == 0 -> inv M = Ret Mi).

Lemma calib_inv_init : calib_inv init_calibrator.
Proof. discriminate. Qed.

Lemma calib_inv_step c o : calib_inv c -> calib_inv (calib_step c o).
Proof.
  intros Hc. destruct o as [[M|]|M]; simpl.
  - unfold _compute_homography. destruct (inv M) as [Mi|e] eqn:E; simpl.
    + intros _. exists M, Mi. auto.
    + intros Hd. destruct (Hc Hd) as (M0 & Mi & _ & HMi & _).
      exists M, Mi. repeat split; auto.
      intro Hn. exfalso. apply Hn. exact (inv_raise_singular M e E).
  - discriminate.
  - unfold set_homography_direct. destruct (inv M) as [Mi|e] eqn:E; simpl.
    + intros _. exists M, Mi. auto.
    + intros Hd. destruct (Hc Hd) as (M0 & Mi & _ & HMi & _).
      exists M, Mi. repeat split; auto.
      intro Hn. exfalso. apply Hn. exact (inv_raise_singular M e E).
Qed.

Lemma calib_inv_run ops : calib_inv (run_calib ops).
Proof.
  unfold run_calib. generalize init_calibrator calib_inv_init.
  induction ops as [|o ops IH]; intros c Hc; simpl; auto.
  apply IH. apply calib_inv_step. exact Hc.
Qed.

Lemma not_small_nonzero a : Qltb (Qabs a) eps_w = false -> ~ a == 0.
Proof.
  rewrite Qltb_false. intros Hle Ha. rewrite Ha in Hle.
  unfold eps_w in Hle. simpl in Hle. apply Hle. reflexivity.
Qed.

Lemma exact_within_rel a b : a == b -> Qabs (a - b) <= (1 # 1000000) * Qabs b.
Proof.
  intro E. rewrite E. setoid_replace (b - b) with 0 by ring. simpl.
  apply Qmult_le_0_compat; [discriminate | apply Qabs_nonneg].
Qed.

(** C2 as stated: after a successful calibration, a failed solve keeps the
    mapping.  It does not: [self.H] is overwritten with [None]. *)
Definition id3 : mat3 := M3 1 0 0 0 1 0 0 0 1.

Lemma C2_prior_mapping_not_retained :
  let c := run_calib [OpCompute (Some id3)] in
  let r := _compute_homography None c in
  ~ (fst r = Ret false /\ calibration_done (snd r) = false /\
     H (snd r) = H c /\ H_inv (snd r) = H_inv c).
Proof. simpl. intros (_ & _ & E & _). discriminate. Qed.

(** C2 (corrected): when [cv2.findHomography] returns no matrix,
    [_compute_homography] returns [False], clears [calibrated], sets the
    stored forward homography [H] to [None], keeps [H_inv], and both
    conversions then return [None]. *)
Theorem compute_homography_failure (c : HomographyCalibrator) :
  let r := _compute_homography None c in
  fst r = Ret false /\ is_calibrated (snd r) = false /\
  H (snd r) = None /\ H_inv (snd r) = H_inv c /\
  (forall p, image_to_world (snd r) p = Ret None /\ world_to_image (snd r) p = Ret None).
Proof. simpl. repeat split. Qed.

(** C5: for a calibrator reached by any sequence of calibrations, calibrated
    with a regular forward homography, a plane point sent to the image and
    back comes back exactly (hence within 1e-6 relative tolerance), as long
    as neither conversion meets a vanishing homogeneous coordinate. *)
Theorem world_image_roundtrip (ops : list calib_op) (M : mat3) (P uv P' : Q * Q) :
  let c := run_calib ops in
  calibration_done c = true -> H c = Some M -> ~ det3 M == 0 ->
  world_to_image c P = Ret (Some uv) ->
  image_to_world c uv = Ret (Some P') ->
  fst P' == fst P /\ snd P' == snd P /\
  Qabs (fst P' - fst P) <= (1 # 1000000) * Qabs (fst P) /\
  Qabs (snd P' - snd P) <= (1 # 1000000) * Qabs (snd P).
Proof.
  intros c Hdone HM Hdet Hw Hi.
  destruct (calib_inv_run ops Hdone) as (M' & Mi & HM' & HMi & Hinv).
  fold c in HM', HMi. rewrite HM in HM'. inversion HM'; subst M'; clear HM'.
  specialize (Hinv Hdet).
  destruct P as [px py].
  unfold world_to_image in Hw. rewrite Hdone, HMi in Hw. cbn [negb fst snd] in Hw. cbv beta iota zeta in Hw.
  remember (mulv Mi (V3 px py 1)) as q eqn:Hqdef.
  destruct (Qltb (Qabs (v2 q)) eps_w) eqn:Eq; [discriminate Hw|].
  inversion Hw; subst uv; clear Hw.
  pose proof (not_small_nonzero _ Eq) as Hq.
  unfold image_to_world in Hi. rewrite Hdone, HM in Hi. cbn [negb fst snd] in Hi. cbv beta iota zeta in Hi.
  match type of Hi with
  | context [Qltb (Qabs (v2 ?x)) eps_w] => set (w := x) in Hi
  end.
  destruct (Qltb (Qabs (v2 w)) eps_w) eqn:Ew; [discriminate Hi|].
  inversion Hi; subst P'; clear Hi.
  pose proof (not_small_nonzero _ Ew) as Hw2.
  destruct (inv_right M Mi (V3 px py 1) Hinv) as (I0 & I1 & I2).
  rewrite <- Hqdef in I0, I1, I2.
  assert (E0 : v0 w == v0 (mulv M q) / v2 q) by (unfold w, mulv; simpl; field; exact Hq).
  assert (E1 : v1 w == v1 (mulv M q) / v2 q) by (unfold w, mulv; simpl; field; exact Hq).
  assert (E2 : v2 w == v2 (mulv M q) / v2 q) by (unfold w, mulv; simpl; field; exact Hq).
  rewrite I0 in E0. rewrite I1 in E1. rewrite I2 in E2. cbn [v0 v1 v2] in E0, E1, E2.
  assert (X : v0 w / v2 w == px /\ v1 w / v2 w == py).
  { rewrite E0, E1, E2. split; field; exact Hq. }
  destruct X as [X0 X1]. cbn [fst snd].
  repeat split; try assumption; apply exact_within_rel; assumption.
Qed.

End CalibrationFacts.

Module CalibrationWitness.
Import Calibration CalibrationFacts.

Definition M0 : mat3 := M3 2 0 1 0 3 2 (1 # 100) 0 1.

Lemma world_image_roundtrip_witness :
  exists uv P',
    calibration_done (run_calib [OpSetDirect M0]) = true /\
    H (run_calib [OpSetDirect M0]) = Some M0 /\ ~ det3 M0 == 0 /\
    world_to_image (run_calib [OpSetDirect M0]) (1, 2) = Ret (Some uv) /\
    image_to_world (run_calib [OpSetDirect M0]) uv = Ret (Some P') /\
    fst P' == 1 /\ snd P' == 2.
Proof.
  destruct (world_to_image (run_calib [OpSetDirect M0]) (1, 2)) as [[uv|]|] eqn:E1;
    [| vm_compute in E1; discriminate E1 | vm_compute in E1; discriminate E1].
  destruct (image_to_world (run_calib [OpSetDirect M0]) uv) as [[P'|]|] eqn:E2;
    [| vm_compute in E1; inversion E1; subst uv; vm_compute in E2; discriminate E2
     | vm_compute in E1; inversion E1; subst uv; vm_compute in E2; discriminate E2].
  assert (Hd : calibration_done (run_calib [OpSetDirect M0]) = true) by reflexivity.
  assert (HM : H (run_calib [OpSetDirect M0]) = Some M0) by reflexivity.
  assert (Hdet : ~ det3 M0 == 0) by (vm_compute; discriminate).
  destruct (world_image_roundtrip [OpSetDirect M0] M0 (1, 2) uv P' Hd HM Hdet E1 E2)
    as (X0 & X1 & _).
  exists uv, P'. repeat split; assumption.
Defined.

End CalibrationWitness.

Module PositioningFacts.
Import Calibration CalibrationFacts Positioning.

Lemma sq_nonneg (d : Q) : 0 <= d ^ 2.
Proof. simpl. nra. Qed.

Lemma sq_pos_nonzero (d : Q) : ~ d == 0 -> 0 < d ^ 2.
Proof.
  intro Hn. simpl. destruct (Qlt_le_dec 0 d) as [Hp|Hp]; [nra|].
  destruct (Qeq_dec d 0) as [E|E]; [contradiction|].
  assert (d < 0) by lra. nra.
Qed.

Lemma scaled_farther (dx dy k Cx Cy : Q) :
  1 < k -> 0 < dx ^ 2 + dy ^ 2 ->
  dx ^ 2 + dy ^ 2 < (Cx + k * dx - Cx) ^ 2 + (Cy + k * dy - Cy) ^ 2.
Proof.
  intros Hk Hd.
  setoid_replace ((Cx + k * dx - Cx) ^ 2 + (Cy + k * dy - Cy) ^ 2)
    with ((k * k) * (dx ^ 2 + dy ^ 2)) by ring.
  assert (Hk2 : 1 < k * k) by nra.
  set (d := dx ^ 2 + dy ^ 2) in *. nra.
Qed.

(** C6: for the positioner over any calibrator the program can build,
    [image_to_plane] returns [None] when not calibrated; when calibrated, a
    forward homography [M] is stored and the result is [None] exactly when
    the homogeneous coordinate of [M @ (u, v, 1)] has magnitude below 1e-10,
    and otherwise that point divided by its homogeneous coordinate. *)
Theorem image_to_plane_spec (ops : list calib_op) (cc : option (Q * Q * Q)) (p : Q * Q) :
  let pp := mkPositioner (run_calib ops) cc in
  (is_calibrated (calibrator pp) = false -> image_to_plane pp p = Ret None) /\
  (is_calibrated (calibrator pp) = true ->
   exists M, H (calibrator pp) = Some M /\
     let w := mulv M (V3 (fst p) (snd p) 1) in
     (Qabs (v2 w) < eps_w -> image_to_plane pp p = Ret None) /\
     (~ Qabs (v2 w) < eps_w -> image_to_plane pp p = Ret (Some (v0 w / v2 w, v1 w / v2 w)))).
Proof.
  intro pp. unfold image_to_plane, is_calibrated, image_to_world. simpl calibrator.
  split.
  - intro Hd. rewrite Hd. reflexivity.
  - intro Hd. destruct (calib_inv_run ops Hd) as (M & Mi & HM & _ & _).
    exists M. split; [exact HM|]. rewrite Hd, HM. cbn [negb]. split.
    + intro Hlt. apply Qltb_true in Hlt. rewrite Hlt. reflexivity.
    + intro Hn. destruct (Qltb _ eps_w) eqn:E; [|reflexivity].
      apply Qltb_true in E. contradiction.
Qed.

(** C7: height correction leaves the apparent position as it is when the
    height is below 1e-6 in magnitude (in particular 0), when no camera
    centre is known, or when the camera is within 1e-6 of the object
    height. *)
Theorem correct_height_identity (pp : PlanarPositioner) (p : Q * Q) (h : Q) :
  (Qabs h < eps_h \/ _camera_center_world pp = None \/
   exists Cx Cy Cz, _camera_center_world pp = Some (Cx, Cy, Cz) /\ Qabs (Cz - h) < eps_h) ->
  correct_height pp (Some p) h = Some p.
Proof.
  intro Hc. unfold correct_height.
  destruct (Qltb (Qabs h) eps_h) eqn:E0; [reflexivity|].
  destruct Hc as [Hh | [Hn | (Cx & Cy & Cz & Hs & Hz)]].
  - apply Qltb_true in Hh. congruence.
  - rewrite Hn. reflexivity.
  - rewrite Hs. apply Qltb_true in Hz. rewrite Hz. reflexivity.
Qed.

Lemma correct_height_identity_witness :
  correct_height (mkPositioner init_calibrator (Some (0, 0, 100))) (Some (3, 4)) 0
  = Some (3, 4).
Proof.
  apply correct_height_identity. left. vm_compute. reflexivity.
Defined.

(** C8 as stated fails for a positive height below the 1e-6 guard: the
    point is returned unchanged, not moved away from the camera foot. *)
Lemma tiny_height_not_corrected :
  let pp := mkPositioner init_calibrator (Some (0, 0, 10)) in
  0 < 1 # 10000000 /\ 1 # 10000000 < 10 /\
  ~ (exists X Y, correct_height pp (Some (1, 0)) (1 # 10000000) = Some (X, Y) /\
                 Engine.dist2 (1, 0) (0, 0) < Engine.dist2 (X, Y) (0, 0)).
Proof.
  intro pp. split; [reflexivity|]. split; [reflexivity|].
  intros (X & Y & E & Hlt). vm_compute in E. inversion E; subst X Y.
  vm_compute in Hlt. discriminate Hlt.
Qed.

(** C8 (corrected): with a camera centre [(Cx, Cy, Cz)] and [Cz > h > 0]:
    if [h >= 1e-6] and [Cz - h >= 1e-6], an apparent point other than
    [(Cx, Cy)] is corrected to [(Cx, Cy) + k * (P' - (Cx, Cy))] with
    [k = Cz / (Cz - h) > 1], so it lies on the same ray and strictly
    farther from [(Cx, Cy)]; if [h < 1e-6] or [Cz - h < 1e-6], the point is
    returned unchanged. *)
Theorem correct_height_moves_outward (pp : PlanarPositioner) (Cx Cy Cz h : Q) (p : Q * Q) :
  _camera_center_world pp = Some (Cx, Cy, Cz) ->
  0 < h -> h < Cz ->
  (eps_h <= h -> eps_h <= Cz - h ->
   ~ (fst p == Cx /\ snd p == Cy) ->
   exists X Y,
     correct_height pp (Some p) h = Some (X, Y) /\
     1 < Cz / (Cz - h) /\
     X - Cx == Cz / (Cz - h) * (fst p - Cx) /\
     Y - Cy == Cz / (Cz - h) * (snd p - Cy) /\
     Engine.dist2 p (Cx, Cy) < Engine.dist2 (X, Y) (Cx, Cy)) /\
  (h < eps_h \/ Cz - h < eps_h -> correct_height pp (Some p) h = Some p).
Proof.
  intros Hc Hh0 HhC. split.
  2:{ intros Hsmall. unfold correct_height. rewrite Hc.
      destruct (Qltb (Qabs h) eps_h) eqn:E1; [reflexivity|].
      apply Qltb_false in E1. rewrite Qabs_pos in E1 by lra.
      destruct (Qltb (Qabs (Cz - h)) eps_h) eqn:E2; [reflexivity|].
      apply Qltb_false in E2. rewrite Qabs_pos in E2 by lra.
      exfalso. destruct Hsmall; lra. }
  intros Heh Hez Hne.
  unfold correct_height. rewrite Hc.
  assert (E1 : Qltb (Qabs h) eps_h = false).
  { apply Qltb_false. rewrite Qabs_pos by lra. exact Heh. }
  assert (E2 : Qltb (Qabs (Cz - h)) eps_h = false).
  { apply Qltb_false. rewrite Qabs_pos by lra. exact Hez. }
  rewrite E1, E2.
  set (k := Cz / (Cz - h)).
  assert (Hk : 1 < k).
  { unfold k. apply Qlt_shift_div_l; lra. }
  exists (Cx + k * (fst p - Cx)), (Cy + k * (snd p - Cy)).
  split; [reflexivity|]. split; [exact Hk|].
  split; [ring|]. split; [ring|].
  unfold Engine.dist2. cbn [fst snd].
  assert (Hd : 0 < (fst p - Cx) ^ 2 + (snd p - Cy) ^ 2).
  { destruct (Qeq_dec (fst p) Cx) as [Ex|Ex].
    - assert (Hy : 0 < (snd p - Cy) ^ 2) by
        (apply sq_pos_nonzero; intro C; apply Hne; split; lra).
      pose proof (sq_nonneg (fst p - Cx)). lra.
    - assert (Hx : 0 < (fst p - Cx) ^ 2) by (apply sq_pos_nonzero; intro C; lra).
      pose proof (sq_nonneg (snd p - Cy)). lra. }
  apply scaled_farther; assumption.
Qed.

Lemma correct_height_moves_outward_witness :
  (exists X Y,
    correct_height (mkPositioner init_calibrator (Some (0, 0, 100))) (Some (3, 4)) 2
      = Some (X, Y) /\
    Engine.dist2 (3, 4) (0, 0) < Engine.dist2 (X, Y) (0, 0)) /\
  correct_height (mkPositioner init_calibrator (Some (0, 0, 100))) (Some (3, 4)) (1 # 10000000)
    = Some (3, 4).
Proof.
  split.
  - destruct (correct_height_moves_outward (mkPositioner init_calibrator (Some (0, 0, 100)))
                0 0 100 2 (3, 4) eq_refl eq_refl eq_refl) as [Hout _].
    destruct Hout as (X & Y & E & _ & _ & _ & D);
      [vm_compute; discriminate | vm_compute; discriminate
      | cbn [fst snd]; intros (C & _); discriminate C |].
    exists X, Y. split; assumption.
  - destruct (correct_height_moves_outward (mkPositioner init_calibrator (Some (0, 0, 100)))
                0 0 100 (1 # 10000000) (3, 4) eq_refl eq_refl eq_refl) as [_ Hin].
    apply Hin. left. reflexivity.
Defined.

End PositioningFacts.

Module TrackingFacts.
Import Tracking.

Section Coasting.
Variable sqrt : Q -> Q.

(** [no_match] reads neither the lost counter nor anything it changes. *)
Lemma no_match_with_lost_counter t n f :
  no_match sqrt (with_lost_counter t n) f = no_match sqrt t f.
Proof. reflexivity. Qed.

Lemma with_lost_counter_twice t a b :
  with_lost_counter (with_lost_counter t a) b = with_lost_counter t b.
Proof. reflexivity. Qed.

Definition coast_value (lp : Q * Q) (lr : Q) : Z * Z * Z :=
  (int_of (fst lp), int_of (snd lp), int_of lr).

(** One frame without a match: the counter goes up by one and, while it
    has not exceeded the ceiling, the last position and radius come back. *)
Lemma update_no_match t f lp lr :
  _initialized t = true -> last_position t = Some lp -> last_radius t = Some lr ->
  no_match sqrt t f = true ->
  snd (update sqrt t f) = with_lost_counter t (S (_lost_counter t)) /\
  ((S (_lost_counter t) <= _max_lost_frames t)%nat ->
   fst (update sqrt t f) = Ret (Some (coast_value lp lr))).
Proof.
  intros Hi Hp Hr Hn. unfold no_match in Hn. unfold update.
  rewrite Hi, Hp, Hr in *. cbn [negb].
  destruct (search_window t lp lr f) as [margin [[[x1 y1] x2] y2]].
  destruct (window_degenerate (x1, y1, x2, y2)); [discriminate Hn|].
  cbn [negb andb] in Hn.
  destruct (find_contours f x1 y1 x2 y2) as [|c cs] eqn:Ec.
  - split; [reflexivity|]. intro Hle. cbn [fst].
    apply Nat.leb_le in Hle. rewrite Hle. reflexivity.
  - destruct (best_candidate sqrt t lp lr margin x1 y1 (c :: cs)) as [[[cx cy] rad]|];
      [discriminate Hn|].
    split; reflexivity.
Qed.

Lemma run_no_match fs : forall t lp lr,
  _initialized t = true -> last_position t = Some lp -> last_radius t = Some lr ->
  Forall (fun f => no_match sqrt t f = true) fs ->
  snd (run sqrt t fs) = with_lost_counter t (_lost_counter t + length fs) /\
  length (fst (run sqrt t fs)) = length fs /\
  (forall k, (k < length fs)%nat -> (_lost_counter t + S k <= _max_lost_frames t)%nat ->
   nth_error (fst (run sqrt t fs)) k = Some (Ret (Some (coast_value lp lr)))).
Proof.
  induction fs as [|f fs IH]; intros t lp lr Hi Hp Hr Hall.
  - cbn. rewrite Nat.add_0_r. split; [|split]; [| reflexivity | intros k Hk; lia].
    destruct t; reflexivity.
  - inversion Hall as [|f' fs' Hf Hfs]; subst f' fs'.
    destruct (update_no_match t f lp lr Hi Hp Hr Hf) as [Hs Hv].
    cbn [run]. destruct (update sqrt t f) as [r t'] eqn:Eu. cbn [fst snd] in Hs, Hv.
    subst t'.
    assert (Hall' : Forall (fun f0 => no_match sqrt (with_lost_counter t (S (_lost_counter t))) f0 = true) fs).
    { eapply Forall_impl; [|exact Hfs]. intros f0 H0. rewrite no_match_with_lost_counter. exact H0. }
    destruct (IH (with_lost_counter t (S (_lost_counter t))) lp lr Hi Hp Hr Hall') as (IH1 & IH2 & IH3).
    destruct (run sqrt (with_lost_counter t (S (_lost_counter t))) fs) as [rs t''] eqn:Er.
    cbn [fst snd] in IH1, IH2, IH3 |- *.
    split; [|split].
    + rewrite IH1, with_lost_counter_twice. cbn [length _lost_counter with_lost_counter].
      f_equal. lia.
    + cbn [length]. rewrite IH2. reflexivity.
    + intros [|k] Hk Hle; cbn [nth_error].
      * f_equal. apply Hv. lia.
      * apply IH3; cbn [length _lost_counter with_lost_counter _max_lost_frames] in *; lia.
Qed.

End Coasting.

(** C3: after [initialize], 31 frames whose search window holds no contour
    the scoring loop accepts: the tracker is not lost after the 30th frame,
    is lost after the 31st, and each of the first 30 updates returns the
    last known position and radius (as the integer pixels [update] always
    reports). *)
Theorem coast_then_lost (sqrt : Q -> Q) (t : ColorTracker) (cx cy r : Q) (fs : list frame) :
  _max_lost_frames t = 30%nat ->
  length fs = 31%nat ->
  Forall (fun f => no_match sqrt (initialize t cx cy r) f = true) fs ->
  is_lost (snd (run sqrt (initialize t cx cy r) (firstn 30 fs))) = false /\
  is_lost (snd (run sqrt (initialize t cx cy r) fs)) = true /\
  (forall k, (k < 30)%nat ->
   nth_error (fst (run sqrt (initialize t cx cy r) fs)) k
   = Some (Ret (Some (int_of cx, int_of cy, int_of r)))).
Proof.
  intros Hmax Hlen Hall.
  assert (Hall30 : Forall (fun f => no_match sqrt (initialize t cx cy r) f = true) (firstn 30 fs)).
  { apply Forall_forall. intros x Hx. apply (proj1 (Forall_forall _ _) Hall).
    rewrite <- (firstn_skipn 30 fs). apply in_or_app. left. exact Hx. }
  destruct (run_no_match sqrt (firstn 30 fs) (initialize t cx cy r) (cx, cy) r
              eq_refl eq_refl eq_refl Hall30) as (A1 & _ & _).
  destruct (run_no_match sqrt fs (initialize t cx cy r) (cx, cy) r
              eq_refl eq_refl eq_refl Hall) as (B1 & _ & B3).
  rewrite length_firstn in A1. rewrite Hlen in A1, B1.
  split; [|split].
  - rewrite A1. unfold is_lost. cbn. rewrite Hmax. reflexivity.
  - rewrite B1. unfold is_lost. cbn. rewrite Hmax. reflexivity.
  - intros k Hk. apply B3; cbn; lia.
Qed.

Definition empty_frame : frame := mkFrame 480 640 (fun _ _ _ _ => []).

Lemma coast_then_lost_witness :
  is_lost (snd (run (fun q => q) (initialize new_tracker 100 100 10)
                     (firstn 30 (repeat empty_frame 31)))) = false /\
  is_lost (snd (run (fun q => q) (initialize new_tracker 100 100 10)
                     (repeat empty_frame 31))) = true.
Proof.
  destruct (coast_then_lost (fun q => q) new_tracker 100 100 10 (repeat empty_frame 31))
    as (A & B & _).
  - reflexivity.
  - reflexivity.
  - apply Forall_forall. intros x Hx. apply repeat_spec in Hx. subst x.
    vm_compute. reflexivity.
  - split; assumption.
Defined.

End TrackingFacts.

Module EngineFacts.
Import Engine.

Lemma check_movement_shape e :
  exists n, snd (_check_movement e) = set_stopped_frame_count e n.
Proof.
  unfold _check_movement.
  destruct (Nat.ltb (length (_last_positions e)) BALL_STOPPED_FRAMES).
  - exists (_stopped_frame_count e). destruct e; reflexivity.
  - destruct (Qltb _ _); eexists; reflexivity.
Qed.

Lemma dist2_self p : dist2 p p == 0.
Proof. unfold dist2. ring. Qed.

Lemma max_step_sq_repeat_lt p c m : forall a, a < c -> 0 < c -> max_step_sq a (repeat p m) < c.
Proof.
  induction m as [|m IH]; intros a Ha Hc; [exact Ha|].
  destruct m as [|m]; [exact Ha|].
  change (max_step_sq a (p :: p :: repeat p m)) with (max_step_sq (Qmax a (dist2 p p)) (p :: repeat p m)).
  apply IH; [|exact Hc].
  apply Q.max_lub_lt; [exact Ha|]. rewrite dist2_self. exact Hc.
Qed.

Lemma skipn_repeat {A} (x : A) n k : skipn n (repeat x k) = repeat x (k - n).
Proof.
  revert k; induction n as [|n IH]; intros k; [rewrite Nat.sub_0_r; reflexivity|].
  destruct k; [reflexivity|]. simpl. apply IH.
Qed.

Definition hole_dist (p : pt) (h : option pt) : option Q :=
  match h with Some hp => Some (dist2 p hp) | None => None end.

Definition fresh_run_inv (p : pt) (h : option pt) (k : nat) (e : MiniGolfEngine) : Prop :=
  game_over (state e) = false /\ _celebrating e = false /\
  _last_positions e = repeat p k /\ _stopped_frame_count e = (k - 14)%nat /\
  _max_history e = 30%nat /\ hole_position (state e) = h /\
  ((1 <= k)%nat -> is_ball_moving (state e) = true).

(** The movement check after [k + 1] equal samples. *)
Lemma check_movement_repeat e p k :
  _last_positions e = repeat p (S k) -> _stopped_frame_count e = (k - 14)%nat ->
  _check_movement e = (Nat.ltb (S k - 14) 15, set_stopped_frame_count e (S k - 14)).
Proof.
  intros Hl Hc. unfold _check_movement. rewrite Hl, repeat_length.
  unfold BALL_STOPPED_FRAMES.
  destruct (Nat.ltb (S k) 15) eqn:E.
  - apply Nat.ltb_lt in E. assert (S k - 14 = 0)%nat as -> by lia.
    assert (k - 14 = 0)%nat by lia.
    f_equal. destruct e; cbn in *; subst. unfold set_stopped_frame_count. cbn. rewrite H. reflexivity.
  - apply Nat.ltb_ge in E. unfold last_n. rewrite repeat_length, skipn_repeat.
    assert (Hq : Qltb (max_step_sq 0 (repeat p (S k - (S k - 15)))) (BALL_STOPPED_THRESHOLD_CM * BALL_STOPPED_THRESHOLD_CM) = true).
    { apply Qltb_true. apply max_step_sq_repeat_lt; reflexivity. }
    rewrite Hq. cbn [_stopped_frame_count set_stopped_frame_count]. rewrite Hc.
    assert (S (k - 14) = S k - 14)%nat as -> by lia. reflexivity.
Qed.

Lemma repeat_snoc {A} (x : A) k : repeat x k ++ [x] = repeat x (S k).
Proof. induction k as [|k IH]; [reflexivity|]. simpl. rewrite IH. reflexivity. Qed.

Lemma fresh_step p h k e t :
  (k <= 27)%nat -> dist_lt (hole_dist p h) HOLE_RADIUS_CM = false ->
  fresh_run_inv p h k e -> fresh_run_inv p h (S k) (update e (Some p) t).
Proof.
  intros Hk Hr (Hgo & Hcel & Hl & Hc & Hm & Hh & Hmv).
  unfold update. rewrite Hgo, Hcel.
  destruct e as [s cnt lps mh lst hit cel dur]; cbn in Hgo, Hcel, Hl, Hc, Hm, Hh, Hmv.
  subst cel lps cnt mh.
  cbn -[dist2 Qltb dist_lt _check_movement _hole_in _advance_level repeat Nat.ltb].
  rewrite repeat_snoc, repeat_length.
  replace (Nat.ltb 30 (S k)) with false by (symmetry; apply Nat.ltb_ge; lia).
  rewrite Hh.
  destruct h as [hp|];
  match goal with |- context [_check_movement ?x] =>
    rewrite (check_movement_repeat x p k) by reflexivity end;
  replace (Nat.ltb (S k - 14) 15) with true by (symmetry; apply Nat.ltb_lt; lia);
  cbn [hole_dist] in Hr; rewrite Hr; rewrite ?andb_false_r;
  cbn -[dist2 Qltb dist_lt repeat Nat.ltb];
  unfold fresh_run_inv; cbn; repeat split; auto.
Qed.

Lemma fresh_last p h e t :
  fresh_run_inv p h 28 e -> is_ball_moving (state (update e (Some p) t)) = false.
Proof.
  intros (Hgo & Hcel & Hl & Hc & Hm & Hh & Hmv).
  unfold update. rewrite Hgo, Hcel.
  destruct e as [s cnt lps mh lst hit cel dur]; cbn in Hgo, Hcel, Hl, Hc, Hm, Hh, Hmv.
  subst cel lps cnt mh.
  cbn -[dist2 Qltb dist_lt _check_movement _hole_in _advance_level repeat Nat.ltb].
  destruct (hole_position s) as [hp|];
  match goal with |- context [_check_movement ?x] =>
    rewrite (check_movement_repeat x p 28) by reflexivity end;
  cbn -[dist2 Qltb dist_lt]; unfold _hole_in, _advance_level; cbn -[dist2 Qltb dist_lt];
  repeat match goal with |- context [if ?b then _ else _] => destruct b end;
  reflexivity.
Qed.

Lemma run_updates_app e l1 l2 : run_updates e (l1 ++ l2) = run_updates (run_updates e l1) l2.
Proof. revert e; induction l1 as [|[x t] l1 IH]; intro e; [reflexivity|]. apply IH. Qed.

Lemma fresh_run p h ts : forall k e,
  (k + length ts <= 28)%nat -> dist_lt (hole_dist p h) HOLE_RADIUS_CM = false ->
  fresh_run_inv p h k e ->
  fresh_run_inv p h (k + length ts) (run_updates e (map (fun t => (Some p, t)) ts)).
Proof.
  induction ts as [|t ts IH]; intros k e Hk Hr Hi.
  - rewrite Nat.add_0_r. exact Hi.
  - cbn [map run_updates length]. rewrite <- Nat.add_succ_comm.
    apply IH; [cbn [length] in Hk; lia | exact Hr |].
    apply fresh_step; [cbn [length] in Hk; lia | exact Hr | exact Hi].
Qed.

Lemma celebrating_countdown e q now' :
  game_over (state e) = false -> _celebrating e = true ->
  now' - _hole_in_time e <= _celebration_duration e ->
  update e q now' =
  upd e (fun s => set_status s (St_countdown (_celebration_duration e - (now' - _hole_in_time e)))).
Proof.
  intros Hgo Hcel Hle. unfold update. rewrite Hgo, Hcel.
  destruct (Qltb (_celebration_duration e) (now' - _hole_in_time e)) eqn:E; [|reflexivity].
  apply Qltb_true in E. exfalso. apply (Qlt_not_le _ _ E Hle).
Qed.

Lemma upd_status_twice e a b :
  upd (upd e (fun s => set_status s a)) (fun s => set_status s b) =
  upd e (fun s => set_status s b).
Proof. reflexivity. Qed.

Lemma celebrating_run inputs : forall e,
  game_over (state e) = false -> _celebrating e = true ->
  Forall (fun i => snd i - _hole_in_time e <= _celebration_duration e) inputs ->
  run_updates e inputs =
  match rev inputs with
  | [] => e
  | (_, t) :: _ =>
      upd e (fun s => set_status s (St_countdown (_celebration_duration e - (t - _hole_in_time e))))
  end.
Proof.
  induction inputs as [|[q t] rest IH]; intros e Hgo Hcel Hall; [reflexivity|].
  inversion Hall as [|? ? Ht Hrest]; subst. cbn [snd] in Ht.
  cbn [run_updates rev]. rewrite celebrating_countdown by assumption.
  rewrite IH by assumption.
  destruct (rev rest) as [|[q' t'] r] eqn:Er; cbn [app]; [reflexivity|].
  apply upd_status_twice.
Qed.

(** C4: on an update with a located position, outside any celebration and
    before game over, the hole-in is triggered exactly when the distance to
    the hole is below 4.0 and either the ball is not moving or the distance
    is below 3.5.  It then sets the holed flag, records the time, sets the
    stroke count to at least 1, adds it to the total score, and for the next
    3.0 seconds every update only rewrites the countdown status: a single
    update, and any sequence of updates timed within the window, leaves the
    engine as it was apart from the status, which shows the countdown of the
    last of them. *)
Theorem hole_in_on_update e p now :
  game_over (state e) = false -> _celebrating e = false -> _celebration_duration e = 3.0 ->
  let e' := update e (Some p) now in
  let d := hole_dist p (hole_position (state e)) in
  (_celebrating e' = true <->
     dist_lt d HOLE_IN_TOLERANCE_CM = true /\
     (is_ball_moving (state e') = false \/ dist_lt d HOLE_RADIUS_CM = true)) /\
  (_celebrating e' = true ->
     is_hole_in (state e') = true /\ _hole_in_time e' = now /\
     putts (state e') =
       Nat.max 1 (putts (state e) +
                  (if is_ball_moving (state e) && negb (is_ball_moving (state e')) then 1 else 0)) /\
     total_score (state e') = (total_score (state e) + putts (state e'))%nat /\
     (forall q now', now' - now <= 3.0 ->
        update e' q now' = upd e' (fun s => set_status s (St_countdown (3.0 - (now' - now))))) /\
     (forall inputs, Forall (fun i => snd i - now <= 3.0) inputs ->
        run_updates e' inputs =
        match rev inputs with
        | [] => e'
        | (_, t) :: _ => upd e' (fun s => set_status s (St_countdown (3.0 - (t - now))))
        end)).
Proof.
  intros Hgo Hcel Hdur. cbv zeta.
  remember (update e (Some p) now) as e' eqn:Ee.
  assert (Hcount : forall q now', _celebrating e' = true -> game_over (state e') = false ->
            _hole_in_time e' = now -> _celebration_duration e' = 3.0 ->
            now' - now <= 3.0 ->
            update e' q now' = upd e' (fun s => set_status s (St_countdown (3.0 - (now' - now))))).
  { intros q now' Hc Hg Ht Hd Hle. rewrite celebrating_countdown; rewrite ?Ht, ?Hd; auto. }
  assert (Hrun : forall inputs, _celebrating e' = true -> game_over (state e') = false ->
            _hole_in_time e' = now -> _celebration_duration e' = 3.0 ->
            Forall (fun i => snd i - now <= 3.0) inputs ->
            run_updates e' inputs =
            match rev inputs with
            | [] => e'
            | (_, t) :: _ => upd e' (fun s => set_status s (St_countdown (3.0 - (t - now))))
            end).
  { intros inputs Hc Hg Ht Hd Hall. rewrite celebrating_run; rewrite ?Ht, ?Hd; auto. }
  revert Ee. unfold update at 1. rewrite Hgo, Hcel.
  destruct e as [s cnt lps mh lst hit cel dur]; cbn in Hgo, Hcel, Hdur |- *. subst cel dur.
  match goal with |- context [_check_movement ?x] =>
    destruct (check_movement_shape x) as [n Hn];
    destruct (_check_movement x) as [mv e4] eqn:Ec end.
  cbn in Hn. subst e4.
  destruct (hole_position s) as [hp|]; cbn [hole_dist];
  [destruct (dist_lt (Some (dist2 p hp)) HOLE_IN_TOLERANCE_CM) eqn:D4;
   destruct (dist_lt (Some (dist2 p hp)) HOLE_RADIUS_CM) eqn:D35 |];
  destruct mv, (is_ball_moving s) eqn:Wm;
  unfold _hole_in, _advance_level;
  cbn -[dist2 Qltb dist_lt Qle_bool update];
  repeat match goal with |- context [if ?b then _ else _] => destruct b eqn:? end;
  intro Ee; subst e'; cbn -[dist2 Qltb dist_lt Qle_bool Nat.max update] in *.
  all: try rewrite Wm in *; cbn [andb negb orb] in *.
  all: try congruence.
  all: split; [split; [intro Hc; try discriminate Hc; auto
                      | intros [Ha Hb]; try discriminate Ha;
                        try (destruct Hb as [Hb|Hb]; discriminate Hb); reflexivity]
              | intro Hc; try discriminate Hc; repeat split ].
  all: try reflexivity.
  all: try (intros q now' Hle; apply Hcount; auto; fail).
  all: try (intros inputs Hall; apply Hrun; auto; fail).
  all: repeat match goal with
       | H : (_ =? _) = true |- _ => apply Nat.eqb_eq in H
       | H : (_ =? _) = false |- _ => apply Nat.eqb_neq in H
       end.
  all: try lia.
  all: try (destruct (putts s) as [|k]; cbn; lia).
Qed.

Lemma hole_in_on_update_witness :
  _celebrating (update (start_game new_engine 0) (Some (46, 19)) 0) = true.
Proof.
  destruct (hole_in_on_update (start_game new_engine 0) (46, 19) 0 eq_refl eq_refl eq_refl)
    as [[_ Hiff] _].
  apply Hiff. split; [vm_compute; reflexivity | right; vm_compute; reflexivity].
Defined.

(** C1 as stated: from a fresh level, equal positions keep [Moving = true]
    on every one of 20 updates, not [false] by the 15th. *)
Lemma still_moving_after_20_equal_samples :
  forallb (fun n => is_ball_moving (state (run_updates (start_game new_engine 0)
                                             (repeat (Some (10, 10), 0) n))))
          (seq 1 20) = true /\
  ~ is_ball_moving (state (run_updates (start_game new_engine 0)
                             (repeat (Some (10, 10), 0) 15))) = false.
Proof. vm_compute. split; [reflexivity | discriminate]. Qed.

(** C1 (corrected): from a fresh level (empty history, stillness counter 0,
    no celebration, not game over) fed one fixed position that is not
    within the hole radius of the target, [Moving] is [true] after each of
    the first 28 updates and first becomes [false] on the 29th: 14 updates
    fill the 15-sample window, then 15 still windows are counted. *)
Theorem fresh_level_first_stop (e : MiniGolfEngine) (p : pt) (ts : list Q) :
  game_over (state e) = false -> _celebrating e = false ->
  _last_positions e = [] -> _stopped_frame_count e = 0%nat -> _max_history e = 30%nat ->
  dist_lt (hole_dist p (hole_position (state e))) HOLE_RADIUS_CM = false ->
  length ts = 29%nat ->
  (forall n, (1 <= n <= 28)%nat ->
     is_ball_moving (state (run_updates e (map (fun t => (Some p, t)) (firstn n ts)))) = true) /\
  is_ball_moving (state (run_updates e (map (fun t => (Some p, t)) ts))) = false.
Proof.
  intros Hgo Hcel Hl Hc Hm Hr Hlen.
  assert (I0 : fresh_run_inv p (hole_position (state e)) 0 e).
  { unfold fresh_run_inv. rewrite Hl, Hc. repeat split; auto; intros; lia. }
  split.
  - intros n Hn.
    assert (Hfl : length (firstn n ts) = n) by (rewrite length_firstn; lia).
    destruct (fresh_run p (hole_position (state e)) (firstn n ts) 0 e)
      as (_ & _ & _ & _ & _ & _ & Hmv); [lia | exact Hr | exact I0 |].
    apply Hmv. lia.
  - rewrite <- (firstn_skipn 28 ts).
    assert (Hs : length (skipn 28 ts) = 1%nat) by (rewrite length_skipn; lia).
    destruct (skipn 28 ts) as [|t [|t' rest]]; cbn in Hs; try discriminate.
    rewrite map_app, run_updates_app.
    assert (Hfl : length (firstn 28 ts) = 28%nat) by (rewrite length_firstn; lia).
    pose proof (fresh_run p (hole_position (state e)) (firstn 28 ts) 0 e) as I28.
    rewrite Hfl in I28.
    cbn [map run_updates]. apply (fresh_last p (hole_position (state e))).
    apply I28; [lia | exact Hr | exact I0].
Qed.

Lemma fresh_level_first_stop_witness :
  is_ball_moving (state (run_updates (start_game new_engine 0)
                          (map (fun t => (Some (10, 10), t)) (repeat 0 29)))) = false.
Proof.
  apply (fresh_level_first_stop (start_game new_engine 0) (10, 10) (repeat 0 29));
    try reflexivity.
Defined.

Lemma update_game_over e q now : game_over (state e) = true -> update e q now = e.
Proof. intro H. unfold update. rewrite H. reflexivity. Qed.

Lemma run_updates_game_over inputs : forall e,
  game_over (state e) = true -> run_updates e inputs = e.
Proof.
  induction inputs as [|[q now] inputs IH]; intros e H; [reflexivity|].
  cbn [run_updates]. rewrite update_game_over by exact H. apply IH. exact H.
Qed.

(** C9: advancing from the last configured level sets [game_over]; from
    then on every sequence of updates leaves the whole engine unchanged,
    strokes and score included. *)
Theorem advance_past_last_level (e : MiniGolfEngine) (now : Q) (inputs : list (option pt * Q)) :
  (length HOLE_POSITIONS <= level (state e))%nat ->
  game_over (state (_advance_level e now)) = true /\
  run_updates (_advance_level e now) inputs = _advance_level e now.
Proof.
  intro Hl.
  assert (Hgo : game_over (state (_advance_level e now)) = true).
  { unfold _advance_level. cbn in Hl |- *.
    destruct (level (state e)) as [|[|[|[|[|k]]]]]; [lia..|reflexivity]. }
  split; [exact Hgo|]. apply run_updates_game_over. exact Hgo.
Qed.

Lemma advance_past_last_level_witness :
  game_over (state (_advance_level (upd (start_game new_engine 0) (fun s => set_level s 5)) 1))
  = true.
Proof.
  apply (advance_past_last_level (upd (start_game new_engine 0) (fun s => set_level s 5)) 1 []).
  reflexivity.
Defined.

(** C10: [restart_level] zeroes the strokes, clears the holed flag, the
    stillness counter, the position history and the celebration, and keeps
    the level, the total score, the hole position, the obstacles and the
    game-over flag. *)
Theorem restart_level_frame (e : MiniGolfEngine) :
  let e' := restart_level e in
  putts (state e') = 0%nat /\ is_hole_in (state e') = false /\
  _stopped_frame_count e' = 0%nat /\ _last_positions e' = [] /\ _celebrating e' = false /\
  level (state e') = level (state e) /\ total_score (state e') = total_score (state e) /\
  hole_position (state e') = hole_position (state e) /\
  obstacles (state e') = obstacles (state e) /\ game_over (state e') = game_over (state e).
Proof. repeat split. Qed.

End EngineFacts.

Module CalibrationEntryFacts.
Import Calibration CalibrationFacts CalibrationEntry.

(** The left-button clicks of a stream of mouse events, in order. *)
Definition clicks (evs : list mouse_event) : list (Z * Z) :=
  map (fun m => (m_x m, m_y m)) (filter (fun m => Z.eqb (m_event m) EVENT_LBUTTONDOWN) evs).

Lemma firstn_full {A} (l r : list A) : length l = 4%nat -> firstn 4 (l ++ r) = l.
Proof.
  intro Hl. rewrite firstn_app, Hl, Nat.sub_diag, firstn_O, app_nil_r.
  apply firstn_all2. lia.
Qed.

Lemma run_callbacks_firstn evs : forall pts,
  (length pts <= 4)%nat -> run_callbacks pts evs = firstn 4 (pts ++ clicks evs).
Proof.
  induction evs as [|m evs IH]; intros pts Hl.
  - unfold run_callbacks, clicks. cbn [fold_left filter map].
    rewrite app_nil_r. symmetry. apply firstn_all2. exact Hl.
  - unfold run_callbacks. cbn [fold_left]. fold (run_callbacks (_mouse_callback_calibration pts (m_event m) (m_x m) (m_y m)) evs).
    unfold clicks. cbn [filter].
    unfold _mouse_callback_calibration.
    destruct (Z.eqb (m_event m) EVENT_LBUTTONDOWN) eqn:Ev; cbn [andb map].
    + destruct (Nat.ltb (length pts) 4) eqn:El.
      * apply Nat.ltb_lt in El. rewrite IH by (rewrite length_app; cbn; lia).
        rewrite <- app_assoc. reflexivity.
      * apply Nat.ltb_ge in El. assert (length pts = 4%nat) by lia.
        rewrite IH by lia. fold (clicks evs). rewrite !firstn_full by assumption. reflexivity.
    + apply IH. exact Hl.
Qed.

Lemma run_callbacks_length pts evs :
  (length pts <= 4)%nat -> (length (run_callbacks pts evs) <= 4)%nat.
Proof.
  intro Hl. rewrite run_callbacks_firstn by exact Hl. rewrite length_firstn. lia.
Qed.

Lemma firstn_idem_app {A} n (a b : list A) : firstn n (firstn n a ++ b) = firstn n (a ++ b).
Proof.
  revert a; induction n as [|n IH]; intros [|x a]; cbn; auto. f_equal. apply IH.
Qed.

(** The left-button clicks of a run of loop passes. *)
Definition tick_clicks (ticks : list tick) : list (Z * Z) :=
  clicks (concat (map t_mouse ticks)).

Lemma clicks_app a b : clicks (a ++ b) = clicks a ++ clicks b.
Proof. unfold clicks. rewrite filter_app, map_app. reflexivity. Qed.

Lemma tick_clicks_cons tk ts : tick_clicks (tk :: ts) = clicks (t_mouse tk) ++ tick_clicks ts.
Proof. unfold tick_clicks. cbn [map concat]. apply clicks_app. Qed.

Lemma manual_loop_clicked ticks : forall pts0 pts,
  (length pts0 <= 4)%nat ->
  manual_loop pts0 ticks = Some (Clicked pts) ->
  length pts = 4%nat /\
  (pts = firstn 4 (pts0 ++ tick_clicks ticks) \/
   exists i tk, nth_error ticks i = Some tk /\ Z.land (t_key tk) 255 = 114%Z /\
     pts = firstn 4 (tick_clicks (skipn (S i) ticks))).
Proof.
  induction ticks as [|tk ts IH]; intros pts0 pts Hl Hm.
  - cbn [manual_loop] in Hm. destruct (Nat.ltb (length pts0) 4) eqn:E; [discriminate|].
    inversion Hm; subst pts. apply Nat.ltb_ge in E. split; [lia|].
    left. unfold tick_clicks, clicks. cbn [map concat filter]. rewrite app_nil_r. symmetry. apply firstn_all2. lia.
  - cbn [manual_loop] in Hm. destruct (Nat.ltb (length pts0) 4) eqn:E.
    + destruct (Z.eqb (Z.land (t_key tk) 255) 27) eqn:K27; [discriminate|].
      destruct (Z.eqb (Z.land (t_key tk) 255) 114) eqn:K114.
      * destruct (IH [] pts ltac:(cbn; lia) Hm) as [H4 [Hp | (i & tk' & Hn & Hk & Hp)]].
        -- split; [exact H4|]. right. exists 0%nat, tk. split; [reflexivity|].
           split; [apply Z.eqb_eq; exact K114|]. exact Hp.
        -- split; [exact H4|]. right. exists (S i), tk'. split; [exact Hn|].
           split; [exact Hk|]. exact Hp.
      * pose proof (run_callbacks_length pts0 (t_mouse tk) Hl) as Hl1.
        destruct (IH _ pts Hl1 Hm) as [H4 [Hp | (i & tk' & Hn & Hk & Hp)]].
        -- split; [exact H4|]. left. rewrite Hp, run_callbacks_firstn by exact Hl.
           rewrite tick_clicks_cons, firstn_idem_app, app_assoc. reflexivity.
        -- split; [exact H4|]. right. exists (S i), tk'. split; [exact Hn|].
           split; [exact Hk|]. exact Hp.
    + inversion Hm; subst pts. apply Nat.ltb_ge in E. split; [lia|].
      left. symmetry. apply firstn_full. lia.
Qed.

(** Keys the waiting loop passes over: neither ESC nor ['r']. *)
Definition plain_key (tk : tick) : Prop :=
  Z.land (t_key tk) 255 <> 27%Z /\ Z.land (t_key tk) 255 <> 114%Z.

(** The loop stops after reading the first [m] passes; the points are the
    first four clicks of the passes read since the start or since the last
    ['r'] read. *)
Lemma manual_loop_clicked_last ticks : forall pts0 pts,
  (length pts0 <= 4)%nat ->
  manual_loop pts0 ticks = Some (Clicked pts) ->
  exists m, (m <= length ticks)%nat /\
    manual_loop pts0 (firstn m ticks) = Some (Clicked pts) /\
    ((Forall plain_key (firstn m ticks) /\
      pts = firstn 4 (pts0 ++ tick_clicks (firstn m ticks))) \/
     exists i tk, (i < m)%nat /\ nth_error ticks i = Some tk /\
       Z.land (t_key tk) 255 = 114%Z /\
       Forall plain_key (firstn (m - S i) (skipn (S i) ticks)) /\
       pts = firstn 4 (tick_clicks (firstn (m - S i) (skipn (S i) ticks)))).
Proof.
  induction ticks as [|tk ts IH]; intros pts0 pts Hl Hm.
  - exists 0%nat. split; [cbn; lia|]. split; [exact Hm|].
    cbn [manual_loop] in Hm. destruct (Nat.ltb (length pts0) 4) eqn:E; [discriminate|].
    inversion Hm; subst pts. apply Nat.ltb_ge in E. left. split; [constructor|].
    rewrite firstn_O. unfold tick_clicks, clicks. cbn [map concat filter]. rewrite app_nil_r.
    symmetry. apply firstn_all2. lia.
  - cbn [manual_loop] in Hm. destruct (Nat.ltb (length pts0) 4) eqn:E.
    2:{ exists 0%nat. split; [cbn; lia|]. split.
        - cbn [firstn manual_loop]. rewrite E. exact Hm.
        - inversion Hm; subst pts. apply Nat.ltb_ge in E. left. split; [constructor|].
          rewrite firstn_O. unfold tick_clicks, clicks. cbn [map concat filter]. rewrite app_nil_r.
          symmetry. apply firstn_all2. lia. }
    destruct (Z.eqb (Z.land (t_key tk) 255) 27) eqn:K27; [discriminate|].
    destruct (Z.eqb (Z.land (t_key tk) 255) 114) eqn:K114.
    + destruct (IH [] pts ltac:(cbn; lia) Hm) as (m & Hm1 & Hrun & Hc).
      exists (S m). split; [cbn [length]; lia|]. split.
      { cbn [firstn manual_loop]. rewrite E, K27, K114. exact Hrun. }
      right. destruct Hc as [(Hf & Hp) | (i & tk' & Hi & Hn & Hk & Hf & Hp)].
      * exists 0%nat, tk. split; [lia|]. split; [reflexivity|].
        split; [apply Z.eqb_eq; exact K114|].
        replace (S m - 1)%nat with m by lia. cbn [skipn]. split; [exact Hf | exact Hp].
      * exists (S i), tk'. split; [lia|]. split; [exact Hn|]. split; [exact Hk|].
        replace (S m - S (S i))%nat with (m - S i)%nat by lia.
        split; [exact Hf | exact Hp].
    + pose proof (run_callbacks_length pts0 (t_mouse tk) Hl) as Hl1.
      destruct (IH _ pts Hl1 Hm) as (m & Hm1 & Hrun & Hc).
      exists (S m). split; [cbn [length]; lia|]. split.
      { cbn [firstn manual_loop]. rewrite E, K27, K114. exact Hrun. }
      destruct Hc as [(Hf & Hp) | (i & tk' & Hi & Hn & Hk & Hf & Hp)].
      * left. split.
        -- rewrite firstn_cons. constructor; [|exact Hf].
           split; apply Z.eqb_neq; assumption.
        -- rewrite Hp, run_callbacks_firstn by exact Hl. rewrite firstn_cons.
           rewrite tick_clicks_cons, firstn_idem_app, app_assoc. reflexivity.
      * right. exists (S i), tk'. split; [lia|]. split; [exact Hn|]. split; [exact Hk|].
        replace (S m - S (S i))%nat with (m - S i)%nat by lia.
        split; [exact Hf | exact Hp].
Qed.

(** [H_inv @ (H @ v)] gives [v] back. *)
Lemma inv_left M Mi x : inv M = Ret Mi ->
  v0 (mulv Mi (mulv M x)) == v0 x /\
  v1 (mulv Mi (mulv M x)) == v1 x /\
  v2 (mulv Mi (mulv M x)) == v2 x.
Proof.
  unfold inv. destruct (Qeq_bool (det3 M) 0) eqn:E; [discriminate|].
  intro Hr; inversion Hr; subst; clear Hr.
  assert (Hd : ~ det3 M == 0) by (intro C; apply Qeq_bool_iff in C; congruence).
  destruct M, x; unfold det3 in *; simpl in *.
  repeat split; field; exact Hd.
Qed.

Lemma id_to_center_snoc ms m k :
  id_to_center (ms ++ [m]) k =
  if Z.eqb k (mk_id m) then Some (mean_point (mk_corners m)) else id_to_center ms k.
Proof. unfold id_to_center. rewrite fold_left_app. reflexivity. Qed.

Lemma id_to_center_some ms : forall k p,
  id_to_center ms k = Some p ->
  exists pre m post, ms = pre ++ m :: post /\ mk_id m = k /\
    ~ In k (map mk_id post) /\ p = mean_point (mk_corners m).
Proof.
  induction ms as [|m ms IH] using rev_ind; intros k p Hk.
  - discriminate Hk.
  - rewrite id_to_center_snoc in Hk. destruct (Z.eqb k (mk_id m)) eqn:E.
    + inversion Hk; subst p. apply Z.eqb_eq in E. exists ms, m, []. auto.
    + destruct (IH k p Hk) as (pre & m' & post & -> & Hid & Hn & Hp).
      exists pre, m', (post ++ [m]). split; [rewrite <- app_assoc; reflexivity|].
      split; [exact Hid|]. split; [|exact Hp].
      rewrite map_app. cbn. intro Hin. apply in_app_or in Hin as [Hin|[Hin|[]]]; [auto|].
      apply Z.eqb_neq in E. auto.
Qed.

Lemma id_to_center_none ms : forall k,
  id_to_center ms k = None <-> ~ In k (map mk_id ms).
Proof.
  induction ms as [|m ms IH] using rev_ind; intro k.
  - cbn. tauto.
  - rewrite id_to_center_snoc, map_app. cbn.
    destruct (Z.eqb k (mk_id m)) eqn:E.
    + apply Z.eqb_eq in E. split; [discriminate|]. intro C. exfalso. apply C.
      apply in_or_app. right. left. auto.
    + apply Z.eqb_neq in E. rewrite IH. split.
      * intros Hn Hin. apply in_app_or in Hin as [Hin|[Hin|[]]]; auto.
      * intros Hn Hin. apply Hn. apply in_or_app. left. exact Hin.
Qed.

Lemma collect_some d order : forall pts,
  collect d order = Some pts -> Forall2 (fun mid p => d mid = Some p) order pts.
Proof.
  induction order as [|mid rest IH]; intros pts Hc.
  - inversion Hc. constructor.
  - cbn in Hc. destruct (d mid) as [p|] eqn:Ed; [|discriminate].
    destruct (collect d rest) as [ps|] eqn:Er; [|discriminate].
    inversion Hc; subst. constructor; [exact Ed|]. apply IH. reflexivity.
Qed.

Lemma collect_none d order :
  collect d order = None <-> exists mid, In mid order /\ d mid = None.
Proof.
  induction order as [|mid rest IH]; cbn.
  - split; [discriminate|]. intros (x & [] & _).
  - destruct (d mid) as [p|] eqn:Ed.
    + destruct (collect d rest) as [l|] eqn:Er; cbn.
      * split; [discriminate|]. intros (x & [<-|Hx] & Hn); [congruence|].
        assert (Hc : Some l = None) by (apply IH; eauto). discriminate Hc.
      * split; [|reflexivity]. intros _. destruct (proj1 IH eq_refl) as (x & Hx & Hn).
        eauto.
    + split; [|reflexivity]. intros _. eauto.
Qed.

Lemma collect_complete d order :
  (forall mid, In mid order -> d mid <> None) -> exists pts, collect d order = Some pts.
Proof.
  intro Hall. destruct (collect d order) as [pts|] eqn:E; [eauto|].
  apply collect_none in E as (mid & Hin & Hn). exfalso. exact (Hall mid Hin Hn).
Qed.

(** The calibration window's callback keeps exactly the first four
    left-button clicks it receives, in order, and ignores every other event
    and every click after the fourth. *)
Theorem click_points_first_four (evs : list mouse_event) :
  run_callbacks [] evs = firstn 4 (clicks evs) /\ (length (run_callbacks [] evs) <= 4)%nat.
Proof.
  split.
  - apply run_callbacks_firstn. cbn. lia.
  - apply run_callbacks_length. cbn. lia.
Qed.

(** [calibrate_manual]: when the loop ends with four points, these are the
    first four left-clicks of the passes it read, counted from the start
    when it read no ['r'], or from just after the last ['r'] it read, and
    they are what the solver receives; an ESC read while fewer than four
    points were held cancels, even when the same [waitKey] call delivered
    the clicks completing the four corners, and a cancelled calibration
    returns [False] with the homography, its inverse and the calibrated
    flag as they were. *)
Theorem calibrate_manual_outcome (findHomography : list (Q * Q) -> option mat3)
  (ticks : list tick) (c : HomographyCalibrator) :
  (forall pts, manual_loop [] ticks = Some (Clicked pts) ->
     calibrate_manual findHomography ticks c
       = Some (_compute_homography (findHomography (corners_of_clicks pts)) c) /\
     length pts = 4%nat /\
     exists m, (m <= length ticks)%nat /\
       manual_loop [] (firstn m ticks) = Some (Clicked pts) /\
       ((Forall plain_key (firstn m ticks) /\
         pts = firstn 4 (tick_clicks (firstn m ticks))) \/
        exists i tk, (i < m)%nat /\ nth_error ticks i = Some tk /\
          Z.land (t_key tk) 255 = 114%Z /\
          Forall plain_key (firstn (m - S i) (skipn (S i) ticks)) /\
          pts = firstn 4 (tick_clicks (firstn (m - S i) (skipn (S i) ticks))))) /\
  (forall pts tk rest, (length pts < 4)%nat -> Z.land (t_key tk) 255 = 27%Z ->
     manual_loop pts (tk :: rest) = Some Cancelled) /\
  (manual_loop [] ticks = Some Cancelled ->
     calibrate_manual findHomography ticks c = Some (Ret false, c)).
Proof.
  split; [|split].
  - intros pts Hm. unfold calibrate_manual. rewrite Hm. split; [reflexivity|].
    split; [exact (proj1 (manual_loop_clicked ticks [] pts ltac:(cbn; lia) Hm))|].
    exact (manual_loop_clicked_last ticks [] pts ltac:(cbn; lia) Hm).
  - intros pts tk rest Hl Hk. cbn [manual_loop].
    replace (Nat.ltb (length pts) 4) with true by (symmetry; apply Nat.ltb_lt; exact Hl).
    rewrite Hk. reflexivity.
  - intro Hm. unfold calibrate_manual. rewrite Hm. reflexivity.
Qed.

Lemma calibrate_manual_outcome_witness :
  calibrate_manual (fun _ => None)
    [mkTick [mkMouse 1 10 10; mkMouse 1 20 10; mkMouse 1 20 20; mkMouse 1 10 20] 27]
    init_calibrator = Some (Ret false, init_calibrator) /\
  exists m, (m <= 3)%nat /\
    manual_loop [] (firstn m
      [mkTick [mkMouse 1 5 5] 0; mkTick [] 114;
       mkTick [mkMouse 1 10 10; mkMouse 1 20 10; mkMouse 1 20 20; mkMouse 1 10 20] 0])
    = Some (Clicked [(10, 10); (20, 10); (20, 20); (10, 20)]%Z).
Proof.
  split.
  - destruct (calibrate_manual_outcome (fun _ => None)
      [mkTick [mkMouse 1 10 10; mkMouse 1 20 10; mkMouse 1 20 20; mkMouse 1 10 20] 27]
      init_calibrator) as (_ & Hesc & Hcan).
    apply Hcan. apply Hesc; [cbn; lia | reflexivity].
  - destruct (calibrate_manual_outcome (fun _ => None)
      [mkTick [mkMouse 1 5 5] 0; mkTick [] 114;
       mkTick [mkMouse 1 10 10; mkMouse 1 20 10; mkMouse 1 20 20; mkMouse 1 10 20] 0]
      init_calibrator) as (Hclk & _ & _).
    destruct (Hclk [(10, 10); (20, 10); (20, 20); (10, 20)]%Z ltac:(vm_compute; reflexivity))
      as (_ & _ & m & Hm & Hrun & _).
    exists m. split; [exact Hm | exact Hrun].
Defined.

(** [calibrate_aruco] returns [False] and leaves the calibrator untouched
    when no marker, fewer than four detections (duplicates counted), or a
    required id is missing; otherwise the solver receives, for each
    required id in order, the mean of the corners of the LAST detection
    carrying that id. *)
Theorem calibrate_aruco_spec (findHomography : list (Q * Q) -> option mat3)
  (order : list Z) (ms : list marker) (c : HomographyCalibrator) :
  calibrate_aruco findHomography order None c = (Ret false, c) /\
  ((length ms < 4)%nat \/ (exists mid, In mid order /\ ~ In mid (map mk_id ms)) ->
     calibrate_aruco findHomography order (Some ms) c = (Ret false, c)) /\
  ((4 <= length ms)%nat -> (forall mid, In mid order -> In mid (map mk_id ms)) ->
     exists pts,
       calibrate_aruco findHomography order (Some ms) c = _compute_homography (findHomography pts) c /\
       Forall2 (fun mid p => exists pre m post, ms = pre ++ m :: post /\ mk_id m = mid /\
                  ~ In mid (map mk_id post) /\ p = mean_point (mk_corners m)) order pts).
Proof.
  split; [reflexivity|]. split.
  - intros [Hl | (mid & Hin & Hn)]; unfold calibrate_aruco.
    + replace (Nat.ltb (length ms) 4) with true by (symmetry; apply Nat.ltb_lt; exact Hl).
      reflexivity.
    + destruct (Nat.ltb (length ms) 4); [reflexivity|].
      replace (collect (id_to_center ms) order) with (@None (list (Q * Q))); [reflexivity|].
      symmetry. apply collect_none. exists mid. split; [exact Hin|].
      apply id_to_center_none. exact Hn.
  - intros Hl Hall.
    destruct (collect_complete (id_to_center ms) order) as [pts Hp].
    { intros mid Hin Hn. apply id_to_center_none in Hn. exact (Hn (Hall mid Hin)). }
    exists pts. split.
    + unfold calibrate_aruco.
      replace (Nat.ltb (length ms) 4) with false by (symmetry; apply Nat.ltb_ge; exact Hl).
      rewrite Hp. reflexivity.
    + apply collect_some in Hp. eapply Forall2_impl; [|exact Hp].
      intros mid p Hd. apply id_to_center_some. exact Hd.
Qed.

Lemma calibrate_aruco_spec_witness :
  calibrate_aruco (fun _ => None) default_marker_ids_order
    (Some [mkMarker 0 [(0, 0)]; mkMarker 0 [(1, 1)]; mkMarker 1 [(2, 2)]; mkMarker 2 [(3, 3)]])
    init_calibrator = (Ret false, init_calibrator).
Proof.
  apply (calibrate_aruco_spec (fun _ => None) default_marker_ids_order
    [mkMarker 0 [(0, 0)]; mkMarker 0 [(1, 1)]; mkMarker 1 [(2, 2)]; mkMarker 2 [(3, 3)]]
    init_calibrator).
  right. exists 3%Z. split; [cbn; tauto|]. cbn. intros [H|[H|[H|[H|[]]]]]; discriminate H.
Defined.

(** Re-calibrating a calibrated calibrator with a matrix on which
    [np.linalg.inv] raises [LinAlgError] (by [_compute_homography] or
    [set_homography_direct]) raises after [self.H] was overwritten: the
    calibrator still reports calibrated, [image_to_world] now uses the new
    matrix, and [world_to_image] keeps answering with the previous
    inverse. *)
Theorem singular_recalibration_stale_inverse (c : HomographyCalibrator) (M : mat3) :
  is_calibrated c = true -> inv M = Raise LinAlgError ->
  let r1 := _compute_homography (Some M) c in
  let r2 := set_homography_direct M c in
  fst r1 = Raise LinAlgError /\ fst r2 = Raise LinAlgError /\
  is_calibrated (snd r1) = true /\ is_calibrated (snd r2) = true /\
  H (snd r1) = Some M /\ H (snd r2) = Some M /\
  (forall P, world_to_image (snd r1) P = world_to_image c P /\
             world_to_image (snd r2) P = world_to_image c P).
Proof.
  intros Hc Hi. cbv zeta.
  unfold _compute_homography, set_homography_direct. rewrite Hi. cbn.
  repeat split; exact Hc.
Qed.

Lemma singular_recalibration_stale_inverse_witness :
  is_calibrated (snd (_compute_homography (Some (M3 0 0 0 0 0 0 0 0 0))
                        (run_calib [OpSetDirect id3]))) = true.
Proof.
  destruct (singular_recalibration_stale_inverse (run_calib [OpSetDirect id3])
              (M3 0 0 0 0 0 0 0 0 0)) as (_ & _ & Hc & _); [reflexivity | reflexivity |].
  exact Hc.
Defined.

End CalibrationEntryFacts.

Module PositioningMoreFacts.
Import Calibration CalibrationFacts CalibrationEntryFacts Positioning PositioningFacts PositioningMore.

Lemma correct_height_some pp q h : exists q', correct_height pp (Some q) h = Some q'.
Proof.
  unfold correct_height. destruct (Qltb (Qabs h) eps_h); [eauto|].
  destruct (_camera_center_world pp) as [[[Cx Cy] Cz]|]; [|eauto].
  destruct (Qltb (Qabs (Cz - h)) eps_h); eauto.
Qed.

(** [get_ball_world_position] returns no position exactly when
    [image_to_plane] returns none (height correction never loses a
    located point), raises exactly what [image_to_plane] raises, and
    without a positive ball radius returns the uncorrected plane point. *)
Theorem get_ball_world_position_spec (pp : PlanarPositioner) (uv : Q * Q) (r : option Q) :
  (get_ball_world_position pp uv r = Ret None <-> image_to_plane pp uv = Ret None) /\
  (forall e, get_ball_world_position pp uv r = Raise e <-> image_to_plane pp uv = Raise e) /\
  (match r with Some r0 => r0 <= 0 | None => True end ->
     get_ball_world_position pp uv r = image_to_plane pp uv).
Proof.
  unfold get_ball_world_position.
  destruct (image_to_plane pp uv) as [[q|]|e] eqn:E.
  - split; [|split].
    + split; [|discriminate]. destruct r as [r0|]; [|discriminate].
      destruct (Qltb 0 r0); [|discriminate].
      destruct (correct_height_some pp q r0) as [q' Hq']. rewrite Hq'. discriminate.
    + intro e. split; [|discriminate]. destruct r as [r0|]; [destruct (Qltb 0 r0)|]; discriminate.
    + destruct r as [r0|]; [|reflexivity]. intro Hle.
      replace (Qltb 0 r0) with false by (symmetry; apply Qltb_false; exact Hle). reflexivity.
  - repeat split; auto.
  - split; [split; discriminate|]. split; [tauto|]. auto.
Qed.

(** Height correction does not follow the camera ray: for a camera centre
    [C = (Cx, Cy, Cz)], a height [0 < h < Cz] past the 1e-6 guards and an
    apparent point [P'] other than [(Cx, Cy)], the returned [(X, Y)] put at
    height [h] is not on the line through [C] and [(P', 0)]; the point of
    that line at height [h] is [C + t (P' - C)] with [t = (Cz - h) / Cz],
    which is strictly closer to [(Cx, Cy)] than [P'], while the returned
    point, [(Cx, Cy) + k * (P' - (Cx, Cy))] with [k = Cz / (Cz - h) > 1],
    is strictly farther. *)
Theorem correct_height_off_camera_ray (pp : PlanarPositioner) (Cx Cy Cz h : Q) (p : Q * Q) :
  _camera_center_world pp = Some (Cx, Cy, Cz) ->
  0 < h -> h < Cz -> eps_h <= h -> eps_h <= Cz - h ->
  ~ (fst p == Cx /\ snd p == Cy) ->
  exists X Y,
    correct_height pp (Some p) h = Some (X, Y) /\
    1 < Cz / (Cz - h) /\
    X == Cx + Cz / (Cz - h) * (fst p - Cx) /\
    Y == Cy + Cz / (Cz - h) * (snd p - Cy) /\
    ~ (exists t, X == Cx + t * (fst p - Cx) /\ Y == Cy + t * (snd p - Cy) /\
                 h == Cz + t * (0 - Cz)) /\
    (let t := (Cz - h) / Cz in
     h == Cz + t * (0 - Cz) /\
     Engine.dist2 (Cx + t * (fst p - Cx), Cy + t * (snd p - Cy)) (Cx, Cy)
       < Engine.dist2 p (Cx, Cy)).
Proof.
  intros Hc Hh0 HhC Heh Hez Hne.
  unfold correct_height. rewrite Hc.
  assert (E1 : Qltb (Qabs h) eps_h = false).
  { apply Qltb_false. rewrite Qabs_pos by lra. exact Heh. }
  assert (E2 : Qltb (Qabs (Cz - h)) eps_h = false).
  { apply Qltb_false. rewrite Qabs_pos by lra. exact Hez. }
  rewrite E1, E2.
  set (k := Cz / (Cz - h)).
  assert (Hk : 1 < k) by (unfold k; apply Qlt_shift_div_l; lra).
  assert (Hd : 0 < (fst p - Cx) ^ 2 + (snd p - Cy) ^ 2).
  { destruct (Qeq_dec (fst p) Cx) as [Ex|Ex].
    - assert (Hy : 0 < (snd p - Cy) ^ 2) by
        (apply sq_pos_nonzero; intro C; apply Hne; split; lra).
      pose proof (sq_nonneg (fst p - Cx)). lra.
    - assert (Hx : 0 < (fst p - Cx) ^ 2) by (apply sq_pos_nonzero; intro C; lra).
      pose proof (sq_nonneg (snd p - Cy)). lra. }
  exists (Cx + k * (fst p - Cx)), (Cy + k * (snd p - Cy)).
  split; [reflexivity|]. split; [exact Hk|].
  split; [reflexivity|]. split; [reflexivity|]. split.
  - intros (t & Hx & Hy & Hz).
    assert (Ht : t < 1) by nra.
    assert (Ex : (k - t) * (fst p - Cx) == 0) by lra.
    assert (Ey : (k - t) * (snd p - Cy) == 0) by lra.
    apply Qmult_integral in Ex as [Ex|Ex]; [lra|].
    apply Qmult_integral in Ey as [Ey|Ey]; [lra|].
    apply Hne. split; lra.
  - cbv zeta. set (t := (Cz - h) / Cz).
    assert (Ht0 : 0 < t) by (unfold t; apply Qlt_shift_div_l; lra).
    assert (Ht1 : t < 1) by (unfold t; apply Qlt_shift_div_r; lra).
    split; [unfold t; field; lra|].
    unfold Engine.dist2. cbn [fst snd].
    setoid_replace ((Cx + t * (fst p - Cx) - Cx) ^ 2 + (Cy + t * (snd p - Cy) - Cy) ^ 2)
      with ((t * t) * ((fst p - Cx) ^ 2 + (snd p - Cy) ^ 2)) by ring.
    assert (Htt : t * t < 1) by nra.
    set (d := (fst p - Cx) ^ 2 + (snd p - Cy) ^ 2) in *. nra.
Qed.

Lemma correct_height_off_camera_ray_witness :
  exists X Y,
    correct_height (mkPositioner init_calibrator (Some (0, 0, 100))) (Some (3, 4)) 2 = Some (X, Y) /\
    ~ (exists t, X == 0 + t * (3 - 0) /\ Y == 0 + t * (4 - 0) /\ 2 == 100 + t * (0 - 100)).
Proof.
  destruct (correct_height_off_camera_ray (mkPositioner init_calibrator (Some (0, 0, 100)))
              0 0 100 2 (3, 4)) as (X & Y & E & _ & _ & _ & Hn & _);
    [reflexivity | reflexivity | reflexivity | vm_compute; discriminate
    | vm_compute; discriminate | cbn [fst snd]; intros (C & _); discriminate C |].
  exists X, Y. split; assumption.
Defined.

End PositioningMoreFacts.

Module TrackingMoreFacts.
Import Tracking TrackingFacts TrackingMore.

Lemma int_of_nonneg q : 0 <= q -> int_of q = Qfloor q.
Proof. intro H. unfold int_of. apply Qle_bool_iff in H. rewrite H. reflexivity. Qed.

Lemma int_of_compat p q : p == q -> int_of p = int_of q.
Proof.
  intro H. unfold int_of.
  destruct (Qle_bool 0 p) eqn:Ep, (Qle_bool 0 q) eqn:Eq.
  - apply Qfloor_comp. exact H.
  - apply Qle_bool_iff in Ep. apply Qle_bool_imp_le in Ep || idtac.
    exfalso. assert (0 <= q) by (rewrite <- H; exact Ep).
    apply Qle_bool_iff in H0. congruence.
  - exfalso. apply Qle_bool_iff in Eq. assert (0 <= p) by (rewrite H; exact Eq).
    apply Qle_bool_iff in H0. congruence.
  - f_equal. apply Qfloor_comp. rewrite H. reflexivity.
Qed.

Lemma Qfloor_plus_Z a z : Qfloor (a + inject_Z z) = (Qfloor a + z)%Z.
Proof.
  pose proof (Qfloor_le a) as A1. pose proof (Qlt_floor a) as A2.
  pose proof (Qfloor_le (a + inject_Z z)) as B1. pose proof (Qlt_floor (a + inject_Z z)) as B2.
  rewrite inject_Z_plus in A2, B2.
  assert (L : (Qfloor (a + inject_Z z) - z < Qfloor a + 1)%Z).
  { rewrite Zlt_Qlt. unfold Z.sub. rewrite !inject_Z_plus, inject_Z_opp. lra. }
  assert (R : (Qfloor a < Qfloor (a + inject_Z z) - z + 1)%Z).
  { rewrite Zlt_Qlt. unfold Z.sub. rewrite !inject_Z_plus, inject_Z_opp. lra. }
  lia.
Qed.

Lemma int_of_range q (lo hi : Z) : inject_Z lo <= q -> q <= inject_Z hi -> (0 <= lo)%Z ->
  (lo <= int_of q <= hi)%Z.
Proof.
  intros H1 H2 H0.
  assert (Hq : 0 <= q).
  { apply Qle_trans with (inject_Z lo); [|exact H1]. unfold Qle; cbn; lia. }
  rewrite (int_of_nonneg q Hq). split.
  - rewrite <- (Qfloor_Z lo). apply Qfloor_resp_le. exact H1.
  - rewrite Zle_Qle. apply Qle_trans with q; [apply Qfloor_le | exact H2].
Qed.

(** A contour the scoring loop skips leaves the candidate found so far. *)
Ltac keep_acc IH H :=
  let c0 := fresh "c" in let Hin := fresh "Hin" in let Hrest := fresh "Hrest" in
  destruct (IH _ _ _ H) as (c0 & Hin & Hrest); exists c0;
  split; [apply in_or_app; left; exact Hin | exact Hrest].

Section Tracker.
Variable sqrt : Q -> Q.

(** Every candidate the scoring loop keeps is one of the contours, placed
    in frame coordinates, with a radius and an area the filters accept. *)
Lemma best_candidate_sound t lp lr margin x1 y1 cnts : forall cx cy r,
  best_candidate sqrt t lp lr margin x1 y1 cnts = Some (cx, cy, r) ->
  exists c, In c cnts /\ cx = fst (c_center c) + inject_Z x1 /\
    cy = snd (c_center c) + inject_Z y1 /\ r = c_radius c /\
    4 <= r <= 180 /\ np_pi * 64 * (3 # 10) <= c_area c.
Proof.
  induction cnts as [|c l IH] using rev_ind; intros cx cy r H.
  - unfold best_candidate in H. cbn in H. discriminate H.
  - unfold best_candidate in H, IH. rewrite fold_left_app in H. cbn [fold_left] in H.
    destruct (fold_left _ l _) as [bs bc].
    cbv zeta in H.
    destruct (Qltb (c_area c) _) eqn:E1; [keep_acc IH H|].
    destruct (Qltb (c_radius c) _) eqn:E2; [keep_acc IH H|].
    destruct (Qltb _ (c_radius c)) eqn:E3; [keep_acc IH H|].
    destruct (Qltb (fst (bs, bc)) _); [|keep_acc IH H].
    cbn [snd] in H. injection H as <- <- <-.
    apply Qltb_false in E1, E2, E3.
    exists c. split; [apply in_or_app; right; left; reflexivity|].
    unfold BALL_MIN_RADIUS_PX, BALL_MAX_RADIUS_PX in *.
    split; [reflexivity|]. split; [reflexivity|]. split; [reflexivity|].
    split; [split|]; lra.
Qed.

Definition radius_ok (t : ColorTracker) : Prop :=
  forall r, last_radius t = Some r -> 4 <= r <= 180.

Definition reported_radius_ok (o : outcome (option (Z * Z * Z))) : Prop :=
  forall x y rr, o = Ret (Some (x, y, rr)) -> (4 <= rr <= 180)%Z.

Lemma coast_radius_ok lr : 4 <= lr <= 180 -> (4 <= int_of lr <= 180)%Z.
Proof. intros [H1 H2]. apply int_of_range; [exact H1 | exact H2 | lia]. Qed.

Lemma update_radius_ok t f :
  radius_ok t -> radius_ok (snd (update sqrt t f)) /\ reported_radius_ok (fst (update sqrt t f)).
Proof.
  intros Hr. unfold update.
  destruct (_initialized t); cbn [negb];
    [| split; [exact Hr | intros x y rr Hx; discriminate Hx]].
  destruct (last_position t) as [lp|] eqn:Ep;
    [| split; [exact Hr | intros x y rr Hx; discriminate Hx]].
  destruct (last_radius t) as [lr|] eqn:Elr;
    [| split; [exact Hr | intros x y rr Hx; discriminate Hx]].
  pose proof (Hr lr Elr) as Hlr.
  destruct (search_window t lp lr f) as [margin [[[x1 y1] x2] y2]].
  destruct (window_degenerate (x1, y1, x2, y2)).
  { split; [exact Hr | intros x y rr Hx; discriminate Hx]. }
  destruct (find_contours f x1 y1 x2 y2) as [|c cs].
  { split; [exact Hr|]. intros x y rr Hx. cbn [fst] in Hx.
    destruct (Nat.leb _ _); [|discriminate Hx].
    injection Hx as _ _ <-. apply coast_radius_ok. exact Hlr. }
  destruct (best_candidate sqrt t lp lr margin x1 y1 (c :: cs)) as [[[cx cy] rad]|] eqn:Eb.
  - destruct (best_candidate_sound _ _ _ _ _ _ _ _ _ _ Eb) as (c0 & _ & _ & _ & _ & Hrad & _).
    assert (Hl : 4 <= (7 # 10) * lr + (3 # 10) * rad <= 180) by (destruct Hlr, Hrad; split; lra).
    split.
    + intros r0 H0. cbn in H0. injection H0 as <-. exact Hl.
    + intros x y rr Hx. cbn [fst] in Hx. injection Hx as _ _ <-.
      apply coast_radius_ok. exact Hl.
  - split; [exact Hr|]. intros x y rr Hx. cbn [fst] in Hx.
    injection Hx as _ _ <-. apply coast_radius_ok. exact Hlr.
Qed.

(** X: a tracker whose radius lies in [[4, 180]] (half the minimum and
    one and a half times the maximum ball radius) keeps it there over any
    frames, and every radius it reports lies in [[4, 180]]. *)
Theorem run_radius_bounded t fs :
  radius_ok t ->
  radius_ok (snd (run sqrt t fs)) /\ Forall reported_radius_ok (fst (run sqrt t fs)).
Proof.
  revert t. induction fs as [|f fs IH]; intros t Hr.
  - split; [exact Hr | constructor].
  - cbn [run]. destruct (update_radius_ok t f Hr) as [H1 H2].
    destruct (update sqrt t f) as [o t'].
    cbn [fst snd] in H1, H2.
    destruct (IH t' H1) as [IH1 IH2].
    destruct (run sqrt t' fs) as [rs t'']. cbn [fst snd] in *.
    split; [exact IH1 | constructor; assumption].
Qed.

End Tracker.

(** X: on a tracker with no velocity whose position lies at least a
    margin from the top and left edges, the rectangle [get_roi] reports is
    the search window [update] uses, once clipped to the frame. *)
Theorem get_roi_search_window t cx cy lr f :
  last_position t = Some (cx, cy) -> last_radius t = Some lr -> _velocity t = (0, 0) ->
  (0 <= search_margin t + int_of (lr * 2))%Z ->
  inject_Z (search_margin t + int_of (lr * 2)) <= cx ->
  inject_Z (search_margin t + int_of (lr * 2)) <= cy ->
  exists rx ry rw rh, get_roi t = Ret (Some (rx, ry, rw, rh)) /\
    snd (search_window t (cx, cy) lr f)
    = (rx, ry, Z.min (frame_w f) (rx + rw), Z.min (frame_h f) (ry + rh)).
Proof.
  intros Hp Hr Hv Hm Hx Hy.
  set (m := (search_margin t + int_of (lr * 2))%Z) in *.
  unfold get_roi. rewrite Hp, Hr. fold m.
  do 4 eexists. split; [reflexivity|].
  unfold search_window. rewrite Hv. fold m. cbn [fst snd].
  assert (Ex : 0 <= cx - inject_Z m) by lra.
  assert (Ey : 0 <= cy - inject_Z m) by lra.
  assert (Hm' : 0 <= inject_Z m) by (unfold Qle; cbn; lia).
  rewrite (int_of_compat (cx + 0 - inject_Z m) (cx - inject_Z m)) by ring.
  rewrite (int_of_compat (cy + 0 - inject_Z m) (cy - inject_Z m)) by ring.
  rewrite (int_of_compat (cx + 0 + inject_Z m) ((cx - inject_Z m) + inject_Z (m * 2))) by
    (rewrite inject_Z_mult; change (inject_Z 2) with 2; ring).
  rewrite (int_of_compat (cy + 0 + inject_Z m) ((cy - inject_Z m) + inject_Z (m * 2))) by
    (rewrite inject_Z_mult; change (inject_Z 2) with 2; ring).
  assert (Ex2 : 0 <= cx - inject_Z m + inject_Z (m * 2)) by (rewrite inject_Z_mult; change (inject_Z 2) with 2; lra).
  assert (Ey2 : 0 <= cy - inject_Z m + inject_Z (m * 2)) by (rewrite inject_Z_mult; change (inject_Z 2) with 2; lra).
  rewrite (int_of_nonneg _ Ex2), (int_of_nonneg _ Ey2), Qfloor_plus_Z, Qfloor_plus_Z.
  rewrite (int_of_nonneg _ Ex), (int_of_nonneg _ Ey).
  assert (F1 : (0 <= Qfloor (cx - inject_Z m))%Z) by (rewrite <- (Qfloor_Z 0); apply Qfloor_resp_le; exact Ex).
  assert (F2 : (0 <= Qfloor (cy - inject_Z m))%Z) by (rewrite <- (Qfloor_Z 0); apply Qfloor_resp_le; exact Ey).
  rewrite (Z.max_r _ _ F1), (Z.max_r _ _ F2). reflexivity.
Qed.

(** X: [OpenCVTracker.initialize] without a frame leaves a tracker that
    was not initialised uninitialised: although it now holds a position
    and a radius, every [update] returns [None] and changes nothing. *)
Theorem cv_initialize_without_frame t cx cy r fs :
  cv_initialized t = false ->
  cv_run (cv_initialize t cx cy r None) fs
  = (repeat (Ret None) (length fs), cv_initialize t cx cy r None).
Proof.
  intros Hi.
  assert (G : forall u, cv_initialized u = false -> cv_run u fs = (repeat (Ret None) (length fs), u)).
  { intros u Hu. induction fs as [|f fs IH]; [reflexivity|].
    cbn [cv_run]. unfold cv_update at 1. rewrite Hu. cbn [negb]. rewrite IH. reflexivity. }
  apply G. exact Hi.
Qed.

(** X: after [OpenCVTracker.initialize] with a frame, frames on which the
    OpenCV tracker fails each return the initial position and radius, and
    the lost counter continues from its value before [initialize] (which
    does not reset it), one step per frame. *)
Theorem cv_failures_after_initialize t cx cy r f0 fs :
  Forall (fun f => fst (cv_result f) = false) fs ->
  let t1 := cv_initialize t cx cy r (Some f0) in
  cv_run t1 fs
  = (repeat (Ret (Some (int_of cx, int_of cy, int_of r))) (length fs),
     mkCv (tracker t1) true (cv_lost_counter t + length fs) (Some (cx, cy)) (Some r)).
Proof.
  intros Hall t1.
  assert (G : forall n, cv_run (mkCv (tracker t1) true n (Some (cx, cy)) (Some r)) fs
     = (repeat (Ret (Some (int_of cx, int_of cy, int_of r))) (length fs),
        mkCv (tracker t1) true (n + length fs) (Some (cx, cy)) (Some r))).
  { induction Hall as [|f fs Hf Hfs IH]; intro n.
    - cbn. rewrite Nat.add_0_r. reflexivity.
    - cbn [cv_run]. unfold cv_update at 1. cbn [cv_initialized tracker negb].
      unfold t1 at 1. cbn [cv_initialize tracker].
      destruct (cv_result f) as [s [[[x0 y0] w0] h0]] eqn:Ef. cbn [fst] in Hf. subst s.
      cbn [cv_last_position cv_last_radius cv_lost_counter].
      rewrite IH. cbn [length]. rewrite Nat.add_succ_r. reflexivity. }
  apply (G (cv_lost_counter t)).
Qed.

Lemma run_radius_bounded_witness :
  radius_ok (snd (run (fun q => q) (initialize new_tracker 100 100 10) [empty_frame])).
Proof.
  apply (run_radius_bounded (fun q => q) (initialize new_tracker 100 100 10) [empty_frame]).
  intros r0 H0. injection H0 as <-. split; apply Qle_bool_iff; vm_compute; reflexivity.
Defined.

Lemma get_roi_search_window_witness :
  exists rx ry rw rh, get_roi (initialize new_tracker 200 150 10) = Ret (Some (rx, ry, rw, rh)) /\
    snd (search_window (initialize new_tracker 200 150 10) (200, 150) 10 empty_frame)
    = (rx, ry, Z.min (frame_w empty_frame) (rx + rw), Z.min (frame_h empty_frame) (ry + rh)).
Proof.
  apply (get_roi_search_window (initialize new_tracker 200 150 10) 200 150 10 empty_frame
           eq_refl eq_refl eq_refl).
  - apply Z.leb_le. vm_compute. reflexivity.
  - apply Qle_bool_iff. vm_compute. reflexivity.
  - apply Qle_bool_iff. vm_compute. reflexivity.
Defined.

Lemma cv_initialize_without_frame_witness :
  cv_run (cv_initialize new_cv_tracker 100 100 10 None) [mkCvFrame 480 640 (true, (90, 90, 20, 20))]
  = ([Ret None], cv_initialize new_cv_tracker 100 100 10 None).
Proof.
  apply (cv_initialize_without_frame new_cv_tracker 100 100 10 [mkCvFrame 480 640 (true, (90, 90, 20, 20))]).
  reflexivity.
Defined.

Lemma cv_failures_after_initialize_witness :
  cv_lost_counter (snd (cv_run (cv_initialize (mkCv None false 7 None None) 100 100 10
                                 (Some (mkCvFrame 480 640 (true, (0, 0, 0, 0)))))
                             (repeat (mkCvFrame 480 640 (false, (0, 0, 0, 0))) 24))) = 31%nat.
Proof.
  rewrite (cv_failures_after_initialize (mkCv None false 7 None None) 100 100 10
             (mkCvFrame 480 640 (true, (0, 0, 0, 0))) (repeat (mkCvFrame 480 640 (false, (0, 0, 0, 0))) 24)).
  - reflexivity.
  - apply Forall_forall. intros x Hx. apply repeat_spec in Hx. subst x. reflexivity.
Defined.

End TrackingMoreFacts.

Module EngineSessionFacts.
Import Engine EngineFacts EngineSession.

(** The hole of level [l] (levels count from 1). *)
Definition hole_for (l : nat) : option pt := Some (nth (l - 1) HOLE_POSITIONS (0, 0)).

(** What every engine reachable in a session satisfies. *)
Definition Inv (e : MiniGolfEngine) : Prop :=
  (1 <= level (state e) <= 6)%nat /\
  game_over (state e) = Nat.eqb (level (state e)) 6 /\
  ((level (state e) <= 5)%nat -> hole_position (state e) = hole_for (level (state e))) /\
  (putts (state e) <= 10)%nat /\
  (_celebrating e = false -> (putts (state e) <= 9)%nat) /\
  is_hole_in (state e) = _celebrating e /\
  (length (_last_positions e) <= 30)%nat /\
  _max_history e = 30%nat /\
  obstacles (state e) = OBSTACLES.

Lemma trim_history_length (l : list pt) p :
  (length (if Nat.ltb 30 (length (l ++ [p])) then last_n 30 (l ++ [p]) else l ++ [p]) <= 30)%nat.
Proof.
  destruct (Nat.ltb 30 (length (l ++ [p]))) eqn:E.
  - unfold last_n. rewrite length_skipn. lia.
  - apply Nat.ltb_ge in E. exact E.
Qed.

Lemma advance_inv e now :
  _celebrating e = false -> game_over (state e) = false ->
  (1 <= level (state e) <= 6)%nat -> game_over (state e) = Nat.eqb (level (state e)) 6 ->
  _max_history e = 30%nat -> obstacles (state e) = OBSTACLES ->
  Inv (_advance_level e now).
Proof.
  intros Hc Hg Hl Hgl Hm Ho.
  destruct e as [[lv pu ts st bw bi hp ob mv hi go dh] sfc lps mh lst hit cel cd].
  cbn in *. subst cel go mh ob.
  assert (L5 : (lv <= 5)%nat) by (symmetry in Hgl; apply Nat.eqb_neq in Hgl; lia).
  destruct lv as [|[|[|[|[|[|lv]]]]]]; try lia; try discriminate Hgl;
  unfold _advance_level, Inv; cbn; repeat split; auto; lia.
Qed.

Lemma hole_in_inv e now :
  (1 <= level (state e) <= 6)%nat -> game_over (state e) = Nat.eqb (level (state e)) 6 ->
  ((level (state e) <= 5)%nat -> hole_position (state e) = hole_for (level (state e))) ->
  (putts (state e) <= 10)%nat -> (length (_last_positions e) <= 30)%nat ->
  _max_history e = 30%nat -> obstacles (state e) = OBSTACLES ->
  Inv (_hole_in e now).
Proof.
  intros Hl Hgl Hh Hp Hlen Hm Ho.
  unfold _hole_in, Inv.
  destruct (Nat.eqb (putts (state _)) 0) eqn:E; cbn; rewrite ?E;
    repeat split; auto; try lia; discriminate.
Qed.

(** Closing the invariant goals of the branches of [update]. *)
Ltac proj_cbn := cbn [state putts level upd set_state set_putts set_is_ball_moving
  set_stopped_frame_count set_last_positions set_distance_to_hole set_ball_world_pos set_status].
Ltac inv_close Hg Hc :=
  unfold Inv; cbn; rewrite ?Hg, ?Hc; repeat split; auto; try lia.
Ltac adv_close Hg Hc Hm :=
  apply advance_inv; cbn; rewrite ?Hg, ?Hc, ?Hm; auto.
Ltac hole_close Hg Hc :=
  apply hole_in_inv; cbn; rewrite ?Hg, ?Hc; auto; try lia.

Lemma update_inv e p now : Inv e -> Inv (update e p now).
Proof.
  intros HI. pose proof HI as (Hl & Hgl & Hh & Hp10 & Hp9 & Hhi & Hlen & Hm & Ho).
  unfold update.
  destruct (game_over (state e)) eqn:Hg; [exact HI|].
  assert (L5 : (level (state e) <= 5)%nat).
  { symmetry in Hgl. apply Nat.eqb_neq in Hgl. lia. }
  destruct (_celebrating e) eqn:Hc.
  - destruct (Qltb _ _).
    + apply advance_inv; cbn; rewrite ?Hg; auto.
    + unfold Inv; cbn; rewrite ?Hg, ?Hc; repeat split; auto; lia.
  - destruct p as [p|].
    2: { unfold Inv; cbn; rewrite ?Hg, ?Hc; repeat split; auto; lia. }
    cbn -[last_n Nat.ltb MAX_PUTTS_PER_HOLE].
    rewrite (Hh L5), Hm. unfold hole_for.
    set (hist := if Nat.ltb 30 _ then _ else _).
    pose proof (trim_history_length (_last_positions e) p) as Hhist. fold hist in Hhist.
    match goal with |- context [_check_movement ?x] =>
      destruct (check_movement_shape x) as [n Hn];
      destruct (_check_movement x) as [mv e4] eqn:Ecm end.
    cbn [snd] in Hn. subst e4.
    idtac.
    destruct (is_ball_moving _ && negb mv) eqn:Ew.
    + apply andb_true_iff in Ew. destruct Ew as [_ Ew]. apply negb_true_iff in Ew. subst mv.
      specialize (Hp9 eq_refl).
      destruct (dist_lt _ _ && _); [hole_close Hg Hc|].
      proj_cbn. cbn [Nat.eqb].
      destruct (Nat.leb MAX_PUTTS_PER_HOLE (S (putts (state e)))) eqn:E10.
      * adv_close Hg Hc Hm.
      * apply Nat.leb_gt in E10. unfold MAX_PUTTS_PER_HOLE in E10. inv_close Hg Hc.
    + specialize (Hp9 eq_refl).
      destruct (dist_lt _ _ && _); [hole_close Hg Hc|].
      destruct mv; [inv_close Hg Hc|].
      proj_cbn. cbn [Nat.eqb].
      destruct (Nat.eqb (putts (state e)) 0); [inv_close Hg Hc|].
      destruct (Nat.leb MAX_PUTTS_PER_HOLE (putts (state e))) eqn:E10.
      * adv_close Hg Hc Hm.
      * apply Nat.leb_gt in E10. unfold MAX_PUTTS_PER_HOLE in E10. inv_close Hg Hc.
Qed.

Lemma restart_level_inv e : Inv e -> Inv (restart_level e).
Proof.
  intros (Hl & Hgl & Hh & Hp10 & Hp9 & Hhi & Hlen & Hm & Ho).
  unfold restart_level, Inv; cbn; repeat split; auto; lia.
Qed.

Lemma start_game_inv e now :
  _max_history e = 30%nat -> (length (_last_positions e) <= 30)%nat -> Inv (start_game e now).
Proof. intros Hm Hlen. unfold start_game, Inv; cbn; repeat split; auto; lia. Qed.

Lemma engine_step_inv e o : Inv e -> Inv (engine_step e o).
Proof.
  intros HI. destruct o as [now|p now|]; cbn [engine_step].
  - destruct HI as (_ & _ & _ & _ & _ & _ & Hlen & Hm & _). apply start_game_inv; assumption.
  - apply update_inv. exact HI.
  - apply restart_level_inv. exact HI.
Qed.

Lemma run_session_inv t0 ops : Inv (run_session t0 ops).
Proof.
  unfold run_session.
  assert (G : forall e, Inv e -> Inv (fold_left engine_step ops e)).
  { induction ops as [|o ops IH]; intros e HI; [exact HI|]. cbn. apply IH, engine_step_inv, HI. }
  apply G, start_game_inv; reflexivity || (cbn; lia).
Qed.

(** X: in every session (a new engine, [start_game], then any calls of
    [start_game], [update] and [restart_level]) the level lies between 1
    and 6, the game is over exactly at level 6, and on levels 1 to 5 the
    hole is the configured position of that level, inside the play area
    as [is_ball_in_bounds] checks it. *)
Theorem session_level_hole t0 ops :
  let e := run_session t0 ops in
  (1 <= level (state e) <= 6)%nat /\
  game_over (state e) = Nat.eqb (level (state e)) 6 /\
  ((level (state e) <= 5)%nat ->
   exists hp, hole_position (state e) = Some hp /\
     nth_error HOLE_POSITIONS (level (state e) - 1) = Some hp /\
     is_ball_in_bounds e hp = true).
Proof.
  intros e. destruct (run_session_inv t0 ops) as (Hl & Hgl & Hh & _).
  fold e in Hl, Hgl, Hh.
  split; [exact Hl|]. split; [exact Hgl|]. intros L5.
  rewrite (Hh L5). unfold hole_for.
  destruct (level (state e)) as [|[|[|[|[|[|lv]]]]]]; try lia;
    eexists; (split; [reflexivity|]); split; reflexivity.
Qed.

(** X: in every session the stroke count never exceeds the per-hole
    maximum of 10, stays below it outside a celebration, and the holed
    flag is set exactly while a celebration runs. *)
Theorem session_putts t0 ops :
  let e := run_session t0 ops in
  (putts (state e) <= MAX_PUTTS_PER_HOLE)%nat /\
  (_celebrating e = false -> (putts (state e) < MAX_PUTTS_PER_HOLE)%nat) /\
  is_hole_in (state e) = _celebrating e.
Proof.
  intros e. subst e. destruct (run_session_inv t0 ops) as (_ & _ & _ & Hp10 & Hp9 & Hhi & _).
  unfold MAX_PUTTS_PER_HOLE. split; [exact Hp10|]. split; [|exact Hhi].
  intros Hc. specialize (Hp9 Hc). lia.
Qed.

(** X: the position history never holds more than [2 * BALL_STOPPED_FRAMES]
    (30) entries. *)
Theorem session_history_bounded t0 ops :
  (length (_last_positions (run_session t0 ops)) <= 2 * BALL_STOPPED_FRAMES)%nat.
Proof.
  destruct (run_session_inv t0 ops) as (_ & _ & _ & _ & _ & _ & Hlen & _).
  exact Hlen.
Qed.

(** X: with the configured (empty) obstacle list, [check_obstacle_collision]
    reports no collision at any point of any session. *)
Theorem session_no_collision t0 ops ball_pos :
  check_obstacle_collision (run_session t0 ops) ball_pos = (false, None).
Proof.
  destruct (run_session_inv t0 ops) as (_ & _ & _ & _ & _ & _ & _ & _ & Ho).
  unfold check_obstacle_collision. rewrite Ho. reflexivity.
Qed.

Lemma advance_total e now : total_score (state (_advance_level e now)) = total_score (state e).
Proof. unfold _advance_level. destruct (Nat.ltb _ _); reflexivity. Qed.

Lemma hole_in_score e now :
  _celebrating (_hole_in e now) = true /\ is_hole_in (state (_hole_in e now)) = true /\
  (1 <= putts (state (_hole_in e now)))%nat /\
  total_score (state (_hole_in e now)) = (total_score (state e) + putts (state (_hole_in e now)))%nat.
Proof.
  unfold _hole_in. destruct (Nat.eqb (putts (state _)) 0) eqn:E; cbn; rewrite ?E;
    (split; [reflexivity|]); (split; [reflexivity|]).
  - split; [lia|reflexivity].
  - cbn in E. apply Nat.eqb_neq in E. split; [lia|reflexivity].
Qed.

(** X: an [update] either leaves the total score unchanged or is a hole-in
    (the celebration starts, the holed flag is set, the stroke count is at
    least 1 and is added to the total).  In particular a level that ends
    by reaching the stroke limit adds nothing to the total. *)
Theorem update_total_score e p now :
  let e' := update e p now in
  total_score (state e') = total_score (state e) \/
  (_celebrating e = false /\ _celebrating e' = true /\ is_hole_in (state e') = true /\
   (1 <= putts (state e'))%nat /\
   total_score (state e') = (total_score (state e) + putts (state e'))%nat).
Proof.
  intros e'. subst e'. unfold update.
  destruct (game_over (state e)); [left; reflexivity|].
  destruct (_celebrating e) eqn:Hc.
  { left. destruct (Qltb _ _); [rewrite advance_total|]; reflexivity. }
  destruct p as [p|]; [|left; reflexivity].
  cbn -[last_n Nat.ltb MAX_PUTTS_PER_HOLE _advance_level _hole_in].
  match goal with |- context [_check_movement ?x] =>
    destruct (check_movement_shape x) as [n Hn];
    destruct (_check_movement x) as [mv e4] eqn:Ecm end.
  cbn [snd] in Hn; subst e4.
  destruct (dist_lt _ _ && _); [right|left].
  - destruct (hole_position (state e)); destruct (_ && negb mv);
    match goal with |- context [_hole_in ?x now] =>
      destruct (hole_in_score x now) as (A & B & C & D) end;
    refine (conj eq_refl (conj A (conj B (conj C _)))); rewrite D; reflexivity.
  - repeat match goal with
    | |- context [if ?b then _ else _] => destruct b
    | |- context [match ?o with Some _ => _ | None => _ end] => destruct o
    end; rewrite ?advance_total; reflexivity.
Qed.

End EngineSessionFacts.
